(** * diffstack/utils/torch_utils.py: a shallow embedding and its properties

    The module is a set of helpers around a tensor framework.  The embedding
    follows the Python source function by function:

    - tensors are a shape and row-major data; the elements are IEEE 754
      binary32 values (the framework's default parameter type), Python
      scalars are binary64 values;
    - the parameters of a network are references into a store of tensors,
      because [copy_] writes in place;
    - Python objects live in a heap of attribute tables;
    - exceptions are a result type, effects are passed explicitly. *)

From Stdlib Require Import ZArith Bool List Ascii String Lia.
From Stdlib Require Import Floats.SpecFloat.
From stdpp Require Import gmap strings list fin_maps pretty.

Set Warnings "-register-all".

Open Scope Z_scope.

(** ** Exceptions *)

Inductive exn := RuntimeError | AttributeError | KeyError | TypeError.

Inductive result (A : Type) :=
| Ok (a : A)
| Raise (e : exn).
Arguments Ok {A} a.
Arguments Raise {A} e.

Definition bind {A B} (r : result A) (k : A -> result B) : result B :=
  match r with
  | Ok a => k a
  | Raise e => Raise e
  end.

Notation "'let*' x ':=' r 'in' k" := (bind r (fun x => k))
  (at level 10, x name, r at level 100, k at level 200).

(** ** Floating-point scalars *)

(** Tensor elements: binary32. *)
Definition f32_mul : spec_float -> spec_float -> spec_float := SFmul 24 128.
Definition f32_add : spec_float -> spec_float -> spec_float := SFadd 24 128.
Definition f32_ltb : spec_float -> spec_float -> bool := SFltb.
Definition f32_valid : spec_float -> bool := valid_binary 24 128.

(** Python floats: binary64. *)
Definition f64_add : spec_float -> spec_float -> spec_float := SFadd 53 1024.
Definition f64_sub : spec_float -> spec_float -> spec_float := SFsub 53 1024.
Definition f64_mul : spec_float -> spec_float -> spec_float := SFmul 53 1024.

(** A Python scalar that meets a binary32 tensor is rounded to binary32. *)
Definition f32_of_f64 (x : spec_float) : spec_float :=
  match x with
  | S754_finite s m e => binary_round 24 128 s m e
  | _ => x
  end.

(** [.item()]: a binary32 element read as a Python float. *)
Definition f64_of_f32 (x : spec_float) : spec_float :=
  match x with
  | S754_finite s m e => binary_round 53 1024 s m e
  | _ => x
  end.

(** The literals of the source. *)
Definition f64_0_0 : spec_float := S754_zero false.
Definition f64_1_0 : spec_float := S754_finite false 4503599627370496 (-52).
Definition f64_0_5 : spec_float := S754_finite false 4503599627370496 (-53).
Definition f64_of_int (z : Z) : spec_float := binary_normalize 53 1024 z 0 false.

Definition f32_0_0 : spec_float := S754_zero false.
Definition f32_1_0 : spec_float := S754_finite false 8388608 (-23).

Definition is_nan (x : spec_float) : bool :=
  match x with S754_nan => true | _ => false end.

(** Neither an infinity nor a NaN. *)
Definition is_finite (x : spec_float) : bool :=
  match x with
  | S754_zero _ | S754_finite _ _ _ => true
  | _ => false
  end.

(** ** Tensors *)

Record tensor := Tensor { shape : list nat; data : list spec_float }.

Definition numel (s : list nat) : nat := foldr Nat.mul 1%nat s.

Definition wf_tensor (t : tensor) : Prop := length (data t) = numel (shape t).

Definition shape_eqb (a b : list nat) : bool := bool_decide (a = b).

(** *** Broadcasting, as the framework does it: shapes are aligned on the
    right, and a dimension of size one is repeated. *)

Fixpoint chunks {A} (n k : nat) (d : list A) : list (list A) :=
  match n with
  | O => []
  | S n' => take k d :: chunks n' k (drop k d)
  end.

Fixpoint expand_data {A} (ss ts : list nat) (d : list A) : list A :=
  match ss, ts with
  | s :: ss', t :: ts' =>
      if Nat.eqb s t
      then concat (map (expand_data ss' ts') (chunks s (numel ss') d))
      else concat (replicate t (expand_data ss' ts' d))
  | _, _ => d
  end.

Definition pad_shape (n : nat) (s : list nat) : list nat :=
  replicate (n - length s)%nat 1%nat ++ s.

Fixpoint dims_expandable (ss ts : list nat) : bool :=
  match ss, ts with
  | [], [] => true
  | s :: ss', t :: ts' => (Nat.eqb s t || Nat.eqb s 1) && dims_expandable ss' ts'
  | _, _ => false
  end.

Definition expandable (ss ts : list nat) : bool :=
  (length ss <=? length ts)%nat && dims_expandable (pad_shape (length ts) ss) ts.

(** [x.expand(ts)]; [None] stands for the framework's refusal. *)
Definition expand (ts : list nat) (x : tensor) : option tensor :=
  if expandable (shape x) ts
  then Some (Tensor ts (expand_data (pad_shape (length ts) (shape x)) ts (data x)))
  else None.

Fixpoint broadcast_dims (a b : list nat) : option (list nat) :=
  match a, b with
  | [], [] => Some []
  | x :: a', y :: b' =>
      match broadcast_dims a' b' with
      | Some r =>
          if Nat.eqb x y then Some (x :: r)
          else if Nat.eqb x 1 then Some (y :: r)
          else if Nat.eqb y 1 then Some (x :: r)
          else None
      | None => None
      end
  | _, _ => None
  end.

Definition broadcast_shapes (a b : list nat) : option (list nat) :=
  let n := Nat.max (length a) (length b) in
  broadcast_dims (pad_shape n a) (pad_shape n b).

(** *** Element-wise operations *)

Fixpoint zip_with_f (f : spec_float -> spec_float -> spec_float)
    (a b : list spec_float) : list spec_float :=
  match a, b with
  | x :: a', y :: b' => f x y :: zip_with_f f a' b'
  | _, _ => []
  end.

(** [a op b] for two tensors: same shape, or broadcast to a common one. *)
Definition tbinop (f : spec_float -> spec_float -> spec_float)
    (a b : tensor) : result tensor :=
  if shape_eqb (shape a) (shape b)
  then Ok (Tensor (shape a) (zip_with_f f (data a) (data b)))
  else
    match broadcast_shapes (shape a) (shape b) with
    | None => Raise RuntimeError
    | Some s =>
        match expand s a, expand s b with
        | Some a', Some b' => Ok (Tensor s (zip_with_f f (data a') (data b')))
        | _, _ => Raise RuntimeError
        end
    end.

(** [a.op_(b)]: the result keeps the shape of [a]; [b] is broadcast to it. *)
Definition tbinop_ (f : spec_float -> spec_float -> spec_float)
    (a b : tensor) : result tensor :=
  if shape_eqb (shape a) (shape b)
  then Ok (Tensor (shape a) (zip_with_f f (data a) (data b)))
  else
    match expand (shape a) b with
    | Some b' => Ok (Tensor (shape a) (zip_with_f f (data a) (data b')))
    | None => Raise RuntimeError
    end.

(** [t * c] for a Python scalar [c]. *)
Definition tmul_scalar (t : tensor) (c : spec_float) : tensor :=
  Tensor (shape t) (map (fun x => f32_mul x (f32_of_f64 c)) (data t)).

Definition tadd : tensor -> tensor -> result tensor := tbinop f32_add.
Definition tmul : tensor -> tensor -> result tensor := tbinop f32_mul.
Definition tadd_ : tensor -> tensor -> result tensor := tbinop_ f32_add.

(** ** The store of parameter tensors *)

Definition loc := nat.

(** [net.parameters()]: the parameter objects of a module, in order; the
    framework yields each object once. *)
Definition network := list loc.

(** [dst.copy_(src)]: the tensor at [dst] keeps its shape and takes the
    elements of [src], broadcast when the shapes differ.  A reference that
    the store does not hold cannot occur in Python; here it is an error. *)
Definition copy_ (st : gmap loc tensor) (dst : loc) (src : tensor)
    : result (gmap loc tensor) :=
  match st !! dst with
  | None => Raise RuntimeError
  | Some t =>
      if shape_eqb (shape t) (shape src)
      then Ok (<[dst := Tensor (shape t) (data src)]> st)
      else
        match expand (shape t) src with
        | Some s' => Ok (<[dst := Tensor (shape t) (data s')]> st)
        | None => Raise RuntimeError
        end
  end.

Definition read (st : gmap loc tensor) (p : loc) : result tensor :=
  match st !! p with
  | Some t => Ok t
  | None => Raise RuntimeError
  end.

(** The loop [for target_param, param in zip(target.parameters(),
    source.parameters())]: it stops with the shorter list. *)
Fixpoint for_zip (body : gmap loc tensor -> loc -> loc -> result (gmap loc tensor))
    (target source : network) (st : gmap loc tensor) : result (gmap loc tensor) :=
  match target, source with
  | tp :: target', p :: source' =>
      let* st' := body st tp p in for_zip body target' source' st'
  | _, _ => Ok st
  end.

Definition soft_update_body (tau : spec_float) (st : gmap loc tensor)
    (target_param param : loc) : result (gmap loc tensor) :=
  let* t := read st target_param in
  let* s := read st param in
  let* v := tadd (tmul_scalar t (f64_sub f64_1_0 tau)) (tmul_scalar s tau) in
  copy_ st target_param v.

Definition soft_update (source target : network) (tau : spec_float)
    (st : gmap loc tensor) : result (gmap loc tensor) :=
  for_zip (soft_update_body tau) target source st.

Definition hard_update_body (st : gmap loc tensor)
    (target_param param : loc) : result (gmap loc tensor) :=
  let* s := read st param in
  copy_ st target_param s.

Definition hard_update (source target : network)
    (st : gmap loc tensor) : result (gmap loc tensor) :=
  for_zip hard_update_body target source st.

(** ** reparameterize *)

(** [x.clamp(lo, hi)] on one element: a NaN stays a NaN. *)
Definition fclamp (lo hi x : spec_float) : spec_float :=
  if is_nan x then x
  else if f32_ltb x lo then lo
  else if f32_ltb hi x then hi
  else x.

(** [t.clamp(lo, hi)] with Python integer bounds. *)
Definition clamp (t : tensor) (lo hi : Z) : tensor :=
  Tensor (shape t)
    (map (fclamp (f32_of_f64 (f64_of_int lo)) (f32_of_f64 (f64_of_int hi))) (data t)).

Section Reparameterize.
(** The framework's element-wise exponential. *)
Variable exp : spec_float -> spec_float.
(** The values the generator of the standard normal distribution yields
    during the call, in order. *)
Variable draw : nat -> spec_float.

Definition texp (t : tensor) : tensor := Tensor (shape t) (map exp (data t)).

(** [std.new(std.size()).normal_()]: a fresh tensor of the given size,
    filled by the generator. *)
Definition new_normal_ (size : list nat) : tensor :=
  Tensor size (map draw (seq 0 (numel size))).

Definition reparameterize (mu logvar : tensor) : result tensor :=
  let logstd := clamp (tmul_scalar logvar f64_0_5) (-4) 15 in
  let std := texp logstd in
  let eps := new_normal_ (shape std) in
  let* z := tmul eps std in
  tadd_ z mu.

(** The description of section 4.3, read literally:
    [logstd = clamp(0.5*logvar, -4, 15)], [std = exp(logstd)], [eps] drawn
    with the shape of [std], result [eps*std + mu]. *)
Definition reparameterize_spec (mu logvar : tensor) : result tensor :=
  let logstd := clamp (tmul_scalar logvar f64_0_5) (-4) 15 in
  let std := texp logstd in
  let eps := new_normal_ (shape std) in
  let* es := tmul eps std in
  tadd es mu.
End Reparameterize.

(** ** Configuration, optimizer and scheduler *)

(** Configuration values: numbers, strings, lists and nested mappings. *)
Inductive cfg :=
| CFloat (x : spec_float)
| CInt (z : Z)
| CStr (s : string)
| CList (l : list cfg)
| CDict (d : gmap string cfg).

(** [c[k]] for a string key. *)
Definition subscript (c : cfg) (k : string) : result cfg :=
  match c with
  | CDict d =>
      match d !! k with
      | Some v => Ok v
      | None => Raise KeyError
      end
  | _ => Raise TypeError
  end.

(** [len(c)] *)
Definition len (c : cfg) : result nat :=
  match c with
  | CStr s => Ok (String.length s)
  | CList l => Ok (length l)
  | CDict d => Ok (size d)
  | _ => Raise TypeError
  end.

(** The objects the framework constructs, as their constructor arguments. *)
Record Adam := { adam_params : network; adam_lr : cfg; adam_weight_decay : cfg }.

Record MultiStepLR := { sched_optimizer : Adam; milestones : cfg; gamma : cfg }.

Section Optimizer.
(** The framework's constructor [optim.Adam(params=..., lr=..., weight_decay=...)],
    which checks its arguments and may refuse them. *)
Variable optim_Adam : network -> cfg -> cfg -> result Adam.

Definition optimizer_from_optim_params (net_optim_params : cfg) (net : network)
    : result Adam :=
  let* lr_section := subscript net_optim_params "learning_rate" in
  let* lr := subscript lr_section "initial" in
  let* reg_section := subscript net_optim_params "regularization" in
  let* l2 := subscript reg_section "L2" in
  optim_Adam net lr l2.
End Optimizer.

Definition lr_scheduler_from_optim_params (net_optim_params : cfg) (net : network)
    (optimizer : Adam) : result (option MultiStepLR) :=
  let* lr_section := subscript net_optim_params "learning_rate" in
  let* schedule := subscript lr_section "epoch_schedule" in
  let* n := len schedule in
  if (0 <? n)%nat then
    let* lr_section1 := subscript net_optim_params "learning_rate" in
    let* ms := subscript lr_section1 "epoch_schedule" in
    let* lr_section2 := subscript net_optim_params "learning_rate" in
    let* g := subscript lr_section2 "decay_factor" in
    Ok (Some {| sched_optimizer := optimizer; milestones := ms; gamma := g |})
  else Ok None.

(** ** A state and exception monad for the effectful helpers *)

Definition M (S A : Type) : Type := S -> result A * S.

Definition ret {S A} (a : A) : M S A := fun s => (Ok a, s).

Definition throw {S A} (e : exn) : M S A := fun s => (Raise e, s).

Definition bindM {S A B} (m : M S A) (k : A -> M S B) : M S B :=
  fun s =>
    match m s with
    | (Ok a, s') => k a s'
    | (Raise e, s') => (Raise e, s')
    end.

Notation "'do*' x ':=' m 'in' k" := (bindM m (fun x => k))
  (at level 10, x name, m at level 100, k at level 200).
Notation "m ';;*' k" := (bindM m (fun _ => k))
  (at level 100, k at level 200, right associativity).

(** ** backprop_for_loss *)

(** The calls into the framework, in the order they are made. *)
Inductive call :=
| ZeroGrad
| Backward (retain_graph : bool)
| ClipGradNorm (max_norm : spec_float)
| Step.

(** What the framework keeps per parameter: its value, and its gradient when
    it has one ([p.grad is not None]). *)
Record params_state := { values : gmap loc tensor; grads : gmap loc tensor }.

Record autograd := { pstate : params_state; calls : list call }.

Section Backprop.
Variables optimizer_t loss_t : Type.
(** The framework's operations, on the parameters' state. *)
Variable zero_grad : optimizer_t -> params_state -> result params_state.
Variable backward : loss_t -> bool -> params_state -> result params_state.
Variable clip_grad_norm_ : network -> spec_float -> params_state -> result params_state.
Variable step : optimizer_t -> params_state -> result params_state.
(** [t.norm(2)] *)
Variable norm2 : tensor -> spec_float.

(** A call into the framework: it is recorded, then it runs. *)
Definition framework (c : call) (f : params_state -> result params_state)
    : M autograd unit :=
  fun w =>
    let w' := {| pstate := pstate w; calls := calls w ++ [c] |} in
    match f (pstate w) with
    | Ok s => (Ok tt, {| pstate := s; calls := calls w' |})
    | Raise e => (Raise e, w')
    end.

(** [p.grad.data.norm(2).pow(2).item()] *)
Definition squared_norm (g : tensor) : spec_float :=
  f64_of_f32 (f32_mul (norm2 g) (norm2 g)).

(** The loop over [net.parameters()] that accumulates [grad_norms]. *)
Fixpoint grad_norms_loop (s : params_state) (net : network) (grad_norms : spec_float)
    : spec_float :=
  match net with
  | [] => grad_norms
  | p :: net' =>
      match grads s !! p with
      | Some g => grad_norms_loop s net' (f64_add grad_norms (squared_norm g))
      | None => grad_norms_loop s net' grad_norms
      end
  end.

Definition backprop_for_loss (net : network) (optim : optimizer_t) (loss : loss_t)
    (max_grad_norm : option spec_float) (retain_graph : bool)
    : M autograd spec_float :=
  framework ZeroGrad (zero_grad optim) ;;*
  framework (Backward retain_graph) (backward loss retain_graph) ;;*
  match max_grad_norm with
  | Some m => framework (ClipGradNorm m) (clip_grad_norm_ net m)
  | None => ret tt
  end ;;*
  do* grad_norms := (fun w => (Ok (grad_norms_loop (pstate w) net f64_0_0), w)) in
  framework Step (step optim) ;;*
  ret grad_norms.


End Backprop.

(** ** Conditional scopes *)

(** The interpreter state a scope can touch: the gradient mode. *)
Record interp := { grad_enabled : bool }.

(** The protocol of a [with] statement.  [__enter__] returns an object or
    [None]; [__exit__] receives the exception raised by the body, if any, and
    answers whether to suppress it. *)
Class ContextManager (C : Type) := {
  __enter__ : C -> M interp (C * option loc);
  __exit__ : C -> option exn -> M interp bool
}.

(** [class dummy_context_mgr] *)
Inductive dummy_context_mgr := Dummy_context_mgr.

#[global] Instance dummy_scope : ContextManager dummy_context_mgr := {
  __enter__ self := ret (self, None);
  __exit__ self exc := ret false
}.

(** The framework's [torch.no_grad()]: it saves the gradient mode and
    switches it off on entry, restores it on exit, and its exit returns
    [None], which is false. *)
Record no_grad := { prev : bool }.

#[global] Instance no_grad_scope : ContextManager no_grad := {
  __enter__ self := fun s => (Ok ({| prev := grad_enabled s |}, None), {| grad_enabled := false |});
  __exit__ self exc := fun s => (Ok false, {| grad_enabled := prev self |})
}.

(** A scope object of either class. *)
Inductive scope :=
| Scope (C : Type) (H : ContextManager C) (c : C).
Arguments Scope {C H} c.

Definition maybe_no_grad (no_grad_flag : bool) : scope :=
  if no_grad_flag then Scope {| prev := false |} else Scope Dummy_context_mgr.

Definition scope_enter (m : scope) : M interp (scope * option loc) :=
  match m with
  | @Scope C H c => do* r := __enter__ c in ret (@Scope C H (fst r), snd r)
  end.

Definition scope_exit (m : scope) (exc : option exn) : M interp bool :=
  match m with
  | @Scope C H c => __exit__ c exc
  end.

(** [with m as v: body]: the body's exception is handed to [__exit__] and is
    raised again unless [__exit__] answers true; [None] is the outcome of a
    body whose exception was suppressed. *)
Definition with_ {A} (m : scope) (body : option loc -> M interp A)
    : M interp (option A) :=
  do* entered := scope_enter m in
  fun s =>
    match body (snd entered) s with
    | (Ok a, s') => (scope_exit (fst entered) None ;;* ret (Some a)) s'
    | (Raise e, s') =>
        (do* suppress := scope_exit (fst entered) (Some e) in
         if suppress : bool then ret None else throw e) s'
    end.

(** ** Attribute paths *)

(** Every Python value is an object: a table of attributes, and whether the
    object refuses attribute assignment (numbers, [None], ...). *)
Record pyobj := PyObj { attrs : gmap string loc; frozen : bool }.

(** [getattr(o, name, *args)]: at most one default. *)
Definition getattr (h : gmap loc pyobj) (o : loc) (name : string) (args : list loc)
    : result loc :=
  match args with
  | _ :: _ :: _ => Raise TypeError
  | _ =>
      match h !! o ≫= (fun ob => attrs ob !! name) with
      | Some v => Ok v
      | None =>
          match args with
          | [d] => Ok d
          | _ => Raise AttributeError
          end
      end
  end.

(** [setattr(o, name, v)] *)
Definition setattr (h : gmap loc pyobj) (o : loc) (name : string) (v : loc)
    : result (gmap loc pyobj) :=
  match h !! o with
  | Some ob =>
      if frozen ob then Raise AttributeError
      else Ok (<[o := PyObj (<[name := v]> (attrs ob)) (frozen ob)]> h)
  | None => Raise AttributeError
  end.

Definition is_dot (c : ascii) : bool := bool_decide (c = "."%char).

(** The truth value of a string. *)
Definition truthy (s : string) : bool :=
  match s with EmptyString => false | _ => true end.

(** [s.split(".")] *)
Fixpoint split_dot (s : string) : list string :=
  match s with
  | EmptyString => [EmptyString]
  | String c s' =>
      if is_dot c then EmptyString :: split_dot s'
      else
        match split_dot s' with
        | w :: ws => String c w :: ws
        | [] => [String c EmptyString]
        end
  end.

(** [s.rpartition(".")]: head, separator and tail around the last dot; two
    empty strings and [s] when there is no dot. *)
Fixpoint rpartition_dot (s : string) : string * string * string :=
  match s with
  | EmptyString => (EmptyString, EmptyString, EmptyString)
  | String c s' =>
      match rpartition_dot s' with
      | (pre, String _ _ as sep, post) => (String c pre, sep, post)
      | (_, EmptyString, post) =>
          if is_dot c then (EmptyString, ".", post)
          else (EmptyString, EmptyString, String c post)
      end
  end.

(** [functools.reduce(_getattr, [obj] + names)] *)
Fixpoint reduce_getattr (h : gmap loc pyobj) (args : list loc) (acc : loc)
    (names : list string) : result loc :=
  match names with
  | [] => Ok acc
  | name :: names' =>
      let* o := getattr h acc name args in
      reduce_getattr h args o names'
  end.

Definition rgetattr (h : gmap loc pyobj) (obj : loc) (attr : string) (args : list loc)
    : result loc :=
  reduce_getattr h args obj (split_dot attr).

Definition rsetattr (h : gmap loc pyobj) (obj : loc) (attr : string) (val : loc)
    : result (gmap loc pyobj) :=
  let '(pre, _, post) := rpartition_dot attr in
  let* o := (if truthy pre then rgetattr h obj pre [] else Ok obj) in
  setattr h o post val.

(** [obj.a.b.c]: attribute access, one level at a time. *)
Fixpoint attr_chain (h : gmap loc pyobj) (obj : loc) (names : list string) : result loc :=
  match names with
  | [] => Ok obj
  | name :: names' =>
      match getattr h obj name [] with
      | Ok o => attr_chain h o names'
      | Raise e => Raise e
      end
  end.

(** A dotted path, written from its segments. *)
Fixpoint dotted (names : list string) : string :=
  match names with
  | [] => EmptyString
  | [name] => name
  | name :: names' => name +:+ "." +:+ dotted names'
  end.

(** An attribute name: not empty, and without a dot. *)
Fixpoint dot_free (s : string) : bool :=
  match s with
  | EmptyString => true
  | String c s' => negb (is_dot c) && dot_free s'
  end.

Definition attr_name (s : string) : bool := truthy s && dot_free s.

(** The attribute table of an object; an object the heap does not know has
    none. *)
Definition attrs_of (h : gmap loc pyobj) (o : loc) : gmap string loc :=
  match h !! o with
  | Some ob => attrs ob
  | None => ∅
  end.

(** ** Timing and logging *)

Inductive event :=
| Synchronize
| Stdout (s : string)
| LogWrite (log : loc) (s : string)
| LogFlush (log : loc).

(** The outside world of the timing helpers: whether the device can be
    synchronized, the readings [time.time()] will return, how many were
    taken, and what has been done so far. *)
Record io := {
  cuda : bool;
  readings : nat -> spec_float;
  taken : nat;
  events : list event
}.

Definition emit (e : event) : M io unit :=
  fun w => (Ok tt, {| cuda := cuda w; readings := readings w; taken := taken w;
                      events := events w ++ [e] |}).

(** [torch.cuda.synchronize()] *)
Definition cuda_synchronize : M io unit :=
  fun w => if cuda w then emit Synchronize w else (Raise RuntimeError, w).

(** [time.time()] *)
Definition time_time : M io spec_float :=
  fun w => (Ok (readings w (taken w)),
            {| cuda := cuda w; readings := readings w; taken := S (taken w);
               events := events w |}).

Definition newline : string := String (ascii_of_nat 10) EmptyString.

Definition print_log (print_str : string) (log : loc) (same_line display : bool)
    : M io unit :=
  (if display then
     if same_line then emit (Stdout print_str)
     else emit (Stdout (print_str +:+ newline))
   else ret tt) ;;*
  (if same_line then emit (LogWrite log print_str)
   else emit (LogWrite log (print_str +:+ newline))) ;;*
  emit (LogFlush log).

Definition tic (timer : bool) : M io (option spec_float) :=
  if timer then
    cuda_synchronize ;;*
    do* start_time := time_time in
    ret (Some start_time)
  else ret None.

(** [f"{name:30s}"]: the name, padded with spaces to thirty characters. *)
Definition pad30 (name : string) : string :=
  name +:+ string_of_list_ascii (replicate (30 - String.length name)%nat " "%char).

Section Toc.
(** [f"{x:.2f}"] *)
Variable format_2f : spec_float -> string.

Definition toc (start_time : option spec_float) (name : string) (timer : bool)
    (log : option loc) : M io (option spec_float) :=
  if timer then
    cuda_synchronize ;;*
    do* end_time := time_time in
    match start_time with
    | None => throw TypeError
    | Some start =>
        let elapsed_ms := f64_mul (f64_sub end_time start) (f64_of_int 1000) in
        let print_str := pad30 name +:+ " EP: " +:+ format_2f elapsed_ms +:+ " ms" in
        match log with
        | Some l => print_log print_str l false false
        | None => emit (Stdout (print_str +:+ newline))
        end ;;*
        ret (Some elapsed_ms)
    end
  else ret None.
End Toc.

(** ** get_torch_device *)

Inductive device := Device_cuda_0 | Device_cpu.

(** What the function reads and writes of the framework: whether a GPU is
    available, and the flag [torch.backends.cudnn.benchmark]. *)
Record backend := { cuda_is_available : bool; cudnn_benchmark : bool }.

Definition get_torch_device (try_to_use_cuda : bool) : M backend device :=
  fun b =>
    if try_to_use_cuda && cuda_is_available b
    then (Ok Device_cuda_0,
          {| cuda_is_available := cuda_is_available b; cudnn_benchmark := true |})
    else (Ok Device_cpu, b).

(** ** ProgressBar *)

(** The trainer, as far as the callback reads it. *)
Record trainer := { current_epoch : Z; max_epochs : Z }.

(** The calls to the progress-bar library, on the bar they concern. *)
Inductive tqdm_call :=
| TqdmNew (bar : loc) (desc : string) (total initial : Z) (leave disable : bool)
| TqdmSetDescription (bar : loc) (desc : string)
| TqdmUpdate (bar : loc) (n : Z)
| TqdmClose (bar : loc).

(** The bars made so far and the calls made on them. *)
Record tqdm_world := { bars : nat; tqdm_calls : list tqdm_call }.

Record ProgressBar := {
  global_progress : bool;
  leave_global_progress : bool;
  global_pb : option loc
}.

(** [ProgressBar(global_progress, leave_global_progress)] *)
Definition ProgressBar_init (global_progress leave_global_progress : bool) : ProgressBar :=
  {| global_progress := global_progress;
     leave_global_progress := leave_global_progress;
     global_pb := None |}.

(** [self.global_desc.format(epoch=..., max_epoch=...)] with the format
    ["Epoch: {epoch}/{max_epoch}"] set by the constructor. *)
Definition global_desc (epoch max_epoch : Z) : string :=
  "Epoch: " +:+ pretty epoch +:+ "/" +:+ pretty max_epoch.

Definition tqdm_call_ (c : tqdm_call) : M tqdm_world unit :=
  fun w => (Ok tt, {| bars := bars w; tqdm_calls := tqdm_calls w ++ [c] |}).

(** [tqdm(desc=..., total=..., initial=..., leave=..., disable=...)] *)
Definition tqdm (desc : string) (total initial : Z) (leave disable : bool)
    : M tqdm_world loc :=
  fun w => (Ok (bars w),
            {| bars := S (bars w);
               tqdm_calls := tqdm_calls w ++ [TqdmNew (bars w) desc total initial leave disable] |}).

(** A method call on [self.global_pb]: [None] has no such method. *)
Definition on_global_pb (self : ProgressBar) (method : loc -> M tqdm_world unit)
    : M tqdm_world unit :=
  match global_pb self with
  | Some bar => method bar
  | None => throw AttributeError
  end.

Definition on_fit_start (self : ProgressBar) (tr : trainer) : M tqdm_world ProgressBar :=
  let desc := global_desc (current_epoch tr + 1) (max_epochs tr) in
  do* bar := tqdm desc (max_epochs tr) (current_epoch tr)
                  (leave_global_progress self) (negb (global_progress self)) in
  ret {| global_progress := global_progress self;
         leave_global_progress := leave_global_progress self;
         global_pb := Some bar |}.

Definition on_fit_end (self : ProgressBar) (tr : trainer) : M tqdm_world ProgressBar :=
  on_global_pb self (fun bar => tqdm_call_ (TqdmClose bar)) ;;*
  ret {| global_progress := global_progress self;
         leave_global_progress := leave_global_progress self;
         global_pb := None |}.

Definition on_epoch_end (self : ProgressBar) (tr : trainer) : M tqdm_world ProgressBar :=
  let desc := global_desc (current_epoch tr + 1) (max_epochs tr) in
  on_global_pb self (fun bar => tqdm_call_ (TqdmSetDescription bar desc)) ;;*
  on_global_pb self (fun bar => tqdm_call_ (TqdmUpdate bar 1)) ;;*
  ret self.

(** The training loop's use of the callback: the start of the fit, the end of
    each epoch with the trainer as it is then, the end of the fit. *)
Fixpoint epochs (self : ProgressBar) (trs : list trainer) : M tqdm_world ProgressBar :=
  match trs with
  | [] => ret self
  | tr :: trs' => do* self' := on_epoch_end self tr in epochs self' trs'
  end.

Definition fit (self : ProgressBar) (start : trainer) (trs : list trainer) (stop : trainer)
    : M tqdm_world ProgressBar :=
  do* self1 := on_fit_start self start in
  do* self2 := epochs self1 trs in
  on_fit_end self2 stop.

(** * Predicates of the statements *)

(** The same value, except that a negative zero may have become positive. *)
Definition up_to_zero_sign (new old : spec_float) : Prop :=
  new = old ∨ (new = S754_zero false ∧ old = S754_zero true).

(** Two parameters that can be paired: both are in the store, with tensors of
    the same shape. *)
Definition paired (st : gmap loc tensor) (tp p : loc) : Prop :=
  ∃ t s, st !! tp = Some t ∧ st !! p = Some s ∧ shape t = shape s.

(** A tensor that belongs to both networks sits at the same position in both. *)
Definition shared_in_place (target source : network) : Prop :=
  ∀ i j tp p, target !! i = Some tp → source !! j = Some p → tp = p → i = j.

(** Two stores that hold tensors of the same shapes at the same places, with
    elements related by [R]. *)
Definition rel_store (R : spec_float → spec_float → Prop) (a b : gmap loc tensor) : Prop :=
  ∀ l,
    match a !! l, b !! l with
    | Some x, Some y => shape x = shape y ∧ Forall2 R (data x) (data y)
    | None, None => True
    | _, _ => False
    end.

(** Every tensor has as many elements as its shape says, all of them
    binary32 values. *)
Definition store_ok (st : gmap loc tensor) : Prop :=
  ∀ l t, st !! l = Some t →
    wf_tensor t ∧ Forall (λ x, f32_valid x = true) (data t).

(** The tensors at [ps] hold no infinity and no NaN. *)
Definition finite_at (st : gmap loc tensor) (ps : network) : Prop :=
  ∀ p t, p ∈ ps → st !! p = Some t → Forall (λ x, is_finite x = true) (data t).

(** Not a NaN, and inside the bounds of the clamp of [reparameterize]. *)
Definition in_clamp_range (x : spec_float) : Prop :=
  is_nan x = false ∧
  f32_ltb x (f32_of_f64 (f64_of_int (-4))) = false ∧
  f32_ltb (f32_of_f64 (f64_of_int 15)) x = false.

(** [t * (1.0 - tau) + s * tau] on the elements of two tensors. *)
Definition blend (tau : spec_float) (dt ds : list spec_float) : list spec_float :=
  zip_with_f f32_add
    (map (λ x, f32_mul x (f32_of_f64 (f64_sub f64_1_0 tau))) dt)
    (map (λ x, f32_mul x (f32_of_f64 tau)) ds).

(** * Sample data for the examples *)

Definition f32_2_0 : spec_float := S754_finite false 8388608 (-22).
Definition f32_3_0 : spec_float := S754_finite false 12582912 (-22).
Definition f32_4_0 : spec_float := S754_finite false 8388608 (-21).

Definition vec (d : list spec_float) : tensor := Tensor [length d] d.

(** Four one-element parameters. *)
Definition store4 : gmap loc tensor :=
  list_to_map [(0%nat, vec [f32_1_0]); (1%nat, vec [f32_2_0]);
               (2%nat, vec [f32_3_0]); (3%nat, vec [f32_4_0])].

(** A parameter that has overflowed next to a sound one. *)
Definition store_inf : gmap loc tensor :=
  list_to_map [(0%nat, vec [f32_1_0]); (1%nat, vec [S754_infinity false])].

(** An exponential for the examples: one at zero, a NaN at a NaN, two at a
    positive number and a half at a negative one. *)
Definition sample_exp (x : spec_float) : spec_float :=
  match x with
  | S754_nan => S754_nan
  | S754_infinity true => S754_zero false
  | S754_infinity false => x
  | S754_zero _ => f32_1_0
  | S754_finite false _ _ => f32_2_0
  | S754_finite true _ _ => S754_finite false 8388608 (-24)
  end.

Definition zero_draw (n : nat) : spec_float := f32_0_0.

(** A framework for the examples: backward gives every parameter the
    gradient [2.0], clipping and stepping leave the state as it is, and the
    norm of a tensor is its first element. *)
Definition sample_zero_grad (o : unit) (s : params_state) : result params_state :=
  Ok {| values := values s; grads := ∅ |}.


Definition sample_clip (net : network) (m : spec_float) (s : params_state)
    : result params_state := Ok s.

Definition sample_step (o : unit) (s : params_state) : result params_state := Ok s.

Definition sample_norm2 (t : tensor) : spec_float :=
  match data t with
  | x :: _ => x
  | [] => f32_0_0
  end.

Definition sample_autograd : autograd :=
  {| pstate := {| values := store4; grads := ∅ |}; calls := [] |}.

(** A configuration with milestones 10 and 20 and decay factor one half. *)
Definition sample_lr : gmap string cfg :=
  list_to_map [("initial", CFloat f64_0_5);
               ("epoch_schedule", CList [CInt 10; CInt 20]);
               ("decay_factor", CFloat f64_0_5)].

Definition sample_params : gmap string cfg :=
  list_to_map [("learning_rate", CDict sample_lr);
               ("regularization", CDict (list_to_map [("L2", CFloat f64_0_0)]))].

(** Objects 0, 1 and 2 with [0.a = 1] and [1.b = 2]; object 3 is a number,
    which takes no attribute. *)
Definition sample_heap : gmap loc pyobj :=
  list_to_map [(0%nat, PyObj (list_to_map [("a", 1%nat)]) false);
               (1%nat, PyObj (list_to_map [("b", 2%nat)]) false);
               (2%nat, PyObj ∅ false);
               (3%nat, PyObj ∅ true)].

(** An object that points to itself: [0.a = 0]. *)
Definition cyclic_heap : gmap loc pyobj :=
  list_to_map [(0%nat, PyObj (list_to_map [("a", 0%nat)]) false);
               (1%nat, PyObj ∅ true)].

(** A world without a device to synchronize, and a clock. *)
Definition sample_io : io :=
  {| cuda := false; readings := λ n, f64_of_int (Z.of_nat n); taken := 0; events := [] |}.

(** A backward pass that fails, and a clipping that fails. *)
Definition failing_backward (l : unit) (retain_graph : bool) (s : params_state)
    : result params_state := Raise RuntimeError.

Definition failing_clip (net : network) (m : spec_float) (s : params_state)
    : result params_state := Raise RuntimeError.

(** A world with a device. *)
Definition sample_io_cuda : io :=
  {| cuda := true; readings := λ n, f64_of_int (Z.of_nat n); taken := 0; events := [] |}.

Definition sample_format_2f (x : spec_float) : string := "0.00".

(** Two one-element parameters with the same content. *)
Definition store_equal : gmap loc tensor :=
  list_to_map [(0%nat, vec [f32_1_0]); (1%nat, vec [f32_1_0])].

(** A configuration whose schedule is the empty string. *)
Definition sample_lr_blank : gmap string cfg :=
  list_to_map [("epoch_schedule", CStr "")].

Definition sample_params_blank : gmap string cfg :=
  list_to_map [("learning_rate", CDict sample_lr_blank)].

(** A constructor for the examples, which accepts every argument. *)
Definition sample_Adam (net : network) (lr weight_decay : cfg) : result Adam :=
  Ok {| adam_params := net; adam_lr := lr; adam_weight_decay := weight_decay |}.

(** * Properties *)

(** ** Binary32 arithmetic with the constants one and zero *)

Lemma f32_mul_one x : f32_valid x = true → f32_mul x f32_1_0 = x.
Proof.
  destruct x as [s|s| |s m e]; try (destruct s; reflexivity); try reflexivity.
  unfold f32_valid, valid_binary, bounded, canonical_mantissa.
  intros H. apply andb_prop in H as [Hc Hb].
  apply Z.eqb_eq in Hc.
  unfold f32_mul, f32_1_0, SFmul.
  rewrite Pos.mul_comm.
  change (8388608 * m)%positive with (Pos.iter xO m 23).
  unfold binary_round_aux, shr_fexp.
  assert (Hd : Zdigits2 (Z.pos (Pos.iter xO m 23)) = Z.pos (digits2_pos m) + 23).
  { cbn. lia. }
  rewrite Hd.
  replace (Z.pos (digits2_pos m) + 23 + (e + -23)) with (Z.pos (digits2_pos m) + e) by lia.
  rewrite Hc.
  replace (e - (e + -23)) with 23 by lia.
  cbn [shr shr_record_of_loc Pos.iter].
  change (SpecFloat.iter_pos shr_1 23 _)
    with {| shr_m := Z.pos m; shr_r := false; shr_s := false |}.
  cbn [shr_m loc_of_shr_record round_nearest_even shr_r shr_s].
  replace (e + -23 + 23) with e by lia.
  cbn [Zdigits2]. rewrite Hc. rewrite Z.sub_diag. cbn [shr shr_m].
  rewrite Hb. destruct s; reflexivity.
Qed.

Lemma up_to_zero_sign_refl x : up_to_zero_sign x x.
Proof. by left. Qed.

Lemma up_to_zero_sign_trans x y z :
  up_to_zero_sign x y → up_to_zero_sign y z → up_to_zero_sign x z.
Proof.
  unfold up_to_zero_sign. intros [H1|[H1 H2]] [H3|[H3 H4]]; subst; auto; discriminate.
Qed.

Lemma up_to_zero_sign_valid x y :
  up_to_zero_sign x y → f32_valid y = true → f32_valid x = true.
Proof. intros [H|[H _]]; by subst. Qed.

Lemma up_to_zero_sign_finite x y :
  up_to_zero_sign x y → is_finite y = true → is_finite x = true.
Proof. intros [H|[H _]]; by subst. Qed.

(** [x * 1.0 + y * 0.0] is [x] when [y] is finite. *)
Lemma blend_keep x y :
  f32_valid x = true → is_finite y = true →
  up_to_zero_sign (f32_add (f32_mul x f32_1_0) (f32_mul y f32_0_0)) x.
Proof.
  intros Hx Hy. rewrite f32_mul_one by done.
  destruct y as [sy|sy| |sy my ey]; try discriminate;
    destruct x as [sx|sx| |sx mx ex]; destruct sy; try destruct sx;
    cbn; auto using up_to_zero_sign_refl; by right.
Qed.

(** [x * 0.0 + y * 1.0] is [y] when [x] is finite. *)
Lemma blend_replace x y :
  is_finite x = true → f32_valid y = true →
  up_to_zero_sign (f32_add (f32_mul x f32_0_0) (f32_mul y f32_1_0)) y.
Proof.
  intros Hx Hy. rewrite (f32_mul_one y) by done.
  destruct x as [sx|sx| |sx mx ex]; try discriminate;
    destruct y as [sy|sy| |sy my ey]; destruct sx; try destruct sy;
    cbn; auto using up_to_zero_sign_refl; by right.
Qed.

(** The scalars the two blends are made with. *)
Lemma tau_zero_scalars :
  f32_of_f64 (f64_sub f64_1_0 f64_0_0) = f32_1_0 ∧ f32_of_f64 f64_0_0 = f32_0_0.
Proof. split; reflexivity. Qed.

Lemma tau_one_scalars :
  f32_of_f64 (f64_sub f64_1_0 f64_1_0) = f32_0_0 ∧ f32_of_f64 f64_1_0 = f32_1_0.
Proof. split; reflexivity. Qed.

(** ** soft_update and hard_update *)

Lemma for_zip_take body target source st :
  for_zip body target source st =
  for_zip body (take (Nat.min (length source) (length target)) target)
               (take (Nat.min (length source) (length target)) source) st.
Proof.
  revert source st. induction target as [|tp target IH]; intros [|p source] st; try done.
  cbn. destruct (body st tp p); cbn; [apply IH | done].
Qed.

Lemma for_zip_frame body target source st st' l :
  (∀ s tp p s', body s tp p = Ok s' → l ≠ tp → s' !! l = s !! l) →
  for_zip body target source st = Ok st' →
  l ∉ target → st' !! l = st !! l.
Proof.
  intros Hbody. revert source st.
  induction target as [|tp target IH]; intros [|p source] st; cbn; try congruence.
  destruct (body st tp p) as [s1|] eqn:Hs; cbn; [|done].
  intros H Hl. apply not_elem_of_cons in Hl as [Hne Hl].
  rewrite (IH _ _ H Hl). eauto.
Qed.

Lemma copy__frame st dst src st' l :
  copy_ st dst src = Ok st' → l ≠ dst → st' !! l = st !! l.
Proof.
  unfold copy_. destruct (st !! dst); [|done].
  destruct (shape_eqb _ _); [|destruct (expand _ _); [|done]];
    intros [= <-] Hne; by rewrite lookup_insert_ne.
Qed.

Lemma hard_update_body_frame l s tp p s' :
  hard_update_body s tp p = Ok s' → l ≠ tp → s' !! l = s !! l.
Proof.
  unfold hard_update_body, read. destruct (s !! p); cbn; [|done].
  apply copy__frame.
Qed.

Lemma soft_update_body_frame tau l s tp p s' :
  soft_update_body tau s tp p = Ok s' → l ≠ tp → s' !! l = s !! l.
Proof.
  unfold soft_update_body, read.
  destruct (s !! tp); cbn; [|done]. destruct (s !! p); cbn; [|done].
  destruct (tadd _ _); cbn; [|done]. apply copy__frame.
Qed.

Lemma copy__same_shape st dst t src :
  st !! dst = Some t → shape t = shape src →
  copy_ st dst src = Ok (<[dst := src]> st).
Proof.
  intros Ht Hs. unfold copy_, shape_eqb. rewrite Ht, bool_decide_eq_true_2 by done.
  destruct src as [ss ds]. cbn in *. by rewrite Hs.
Qed.

Lemma hard_update_body_paired st tp p t s :
  st !! tp = Some t → st !! p = Some s → shape t = shape s →
  hard_update_body st tp p = Ok (<[tp := s]> st).
Proof.
  intros Ht Hp Hs. unfold hard_update_body, read. rewrite Hp. cbn.
  by apply copy__same_shape with t.
Qed.

Lemma hard_update_frame source target st st' l :
  hard_update source target st = Ok st' → l ∉ target → st' !! l = st !! l.
Proof. apply for_zip_frame. apply hard_update_body_frame. Qed.

Lemma soft_update_frame source target tau st st' l :
  soft_update source target tau st = Ok st' → l ∉ target → st' !! l = st !! l.
Proof. apply for_zip_frame. apply soft_update_body_frame. Qed.

(** C1, as amended: hard_update makes each target parameter equal to the
    source parameter at the same position, as that one was before the call
    and as it is after it, when the parameters are paired with equal shapes
    and a tensor that both networks hold sits at the same position in both
    (in particular when they hold none in common). *)
Theorem hard_update_copies_source source target st :
  NoDup target →
  Forall2 (paired st) target source →
  shared_in_place target source →
  ∃ st', hard_update source target st = Ok st' ∧
    ∀ i tp p, target !! i = Some tp → source !! i = Some p →
      st' !! tp = st !! p ∧ st' !! tp = st' !! p.
Proof.
  unfold hard_update. revert source st.
  induction target as [|tp target IH]; intros source st Hnd Hp Hsh.
  - apply Forall2_nil_inv_l in Hp as ->. exists st. split; [done|].
    intros i tp p H. by rewrite lookup_nil in H.
  - apply Forall2_cons_inv_l in Hp as (p & source' & (t & s & Ht & Hs & Hts) & Hp & ->).
    apply NoDup_cons in Hnd as [Hnotin Hnd].
    assert (Htl : ∀ j q, source' !! j = Some q → q ≠ tp).
    { intros j q Hq ->. by specialize (Hsh 0%nat (S j) tp tp eq_refl Hq eq_refl). }
    assert (Hhd : ∀ j q, target !! j = Some q → q ≠ p).
    { intros j q Hq ->. by specialize (Hsh (S j) 0%nat p p Hq eq_refl eq_refl). }
    cbn. rewrite (hard_update_body_paired _ _ _ _ _ Ht Hs Hts). cbn.
    destruct (IH source' (<[tp := s]> st)) as (st' & Hrun & Hall); [done| |..].
    + apply Forall2_same_length_lookup. split; [by eapply Forall2_length|].
      intros j tq q Htq Hq.
      destruct (Forall2_lookup_lr _ _ _ _ _ _ Hp Htq Hq) as (t' & s' & ? & ? & ?).
      exists t', s'. rewrite !lookup_insert_ne; [done| |].
      * intros ->. by eapply Htl.
      * intros ->. apply Hnotin. by eapply list_elem_of_lookup_2.
    + intros i j tq q Htq Hq Heq.
      by specialize (Hsh (S i) (S j) tq q Htq Hq Heq) as [= ->].
    + exists st'. split; [done|]. intros [|i] tq q Htq Hq; cbn in *.
      * injection Htq as <-. injection Hq as <-.
        assert (E1 : st' !! tp = Some s).
        { rewrite (for_zip_frame _ _ _ _ _ tp (hard_update_body_frame tp) Hrun Hnotin).
          apply lookup_insert_eq. }
        assert (E2 : st' !! p = Some s).
        { rewrite (for_zip_frame _ _ _ _ _ p (hard_update_body_frame p) Hrun).
          - destruct (decide (tp = p)) as [->|Hne];
              [apply lookup_insert_eq | by rewrite lookup_insert_ne].
          - intros Hin. apply list_elem_of_lookup in Hin as [j Hj]. by eapply Hhd. }
        by rewrite E1, E2, Hs.
      * destruct (Hall i tq q Htq Hq) as [H1 H2]. split; [|done].
        rewrite H1. apply lookup_insert_ne. intros ->. by eapply Htl.
Qed.

(** *** Updates succeed on paired parameters and keep every shape *)

Lemma paired_shapes st st' tp p :
  shape <$> st' = shape <$> st → paired st tp p → paired st' tp p.
Proof.
  intros E (t & s & Ht & Hs & Hts).
  assert (H1 : (shape <$> st') !! tp = Some (shape t)) by by rewrite E, lookup_fmap, Ht.
  assert (H2 : (shape <$> st') !! p = Some (shape s)) by by rewrite E, lookup_fmap, Hs.
  rewrite lookup_fmap in H1, H2.
  destruct (st' !! tp) as [t'|] eqn:E1; [|done].
  destruct (st' !! p) as [s'|] eqn:E2; [|done].
  cbn in *. exists t', s'. repeat split; congruence.
Qed.

Lemma insert_same_shape (st : gmap loc tensor) l t v :
  st !! l = Some t → shape v = shape t → shape <$> <[l := v]> st = shape <$> st.
Proof.
  intros Ht Hv. rewrite fmap_insert, Hv. apply insert_id. by rewrite lookup_fmap, Ht.
Qed.

Lemma hard_update_body_ok st tp p :
  paired st tp p →
  ∃ st', hard_update_body st tp p = Ok st' ∧ shape <$> st' = shape <$> st.
Proof.
  intros (t & s & Ht & Hs & Hts). exists (<[tp := s]> st).
  split; [by eapply hard_update_body_paired | by eapply insert_same_shape].
Qed.

Lemma soft_update_body_paired tau st tp p t s :
  st !! tp = Some t → st !! p = Some s → shape t = shape s →
  soft_update_body tau st tp p =
    Ok (<[tp := Tensor (shape t)
            (zip_with_f f32_add
               (map (λ x, f32_mul x (f32_of_f64 (f64_sub f64_1_0 tau))) (data t))
               (map (λ x, f32_mul x (f32_of_f64 tau)) (data s)))]> st).
Proof.
  intros Ht Hs Hts. unfold soft_update_body, read. rewrite Ht, Hs. cbn.
  unfold tadd, tbinop, shape_eqb. cbn. rewrite bool_decide_eq_true_2 by done. cbn.
  by apply copy__same_shape with t.
Qed.

Lemma soft_update_body_ok tau st tp p :
  paired st tp p →
  ∃ st', soft_update_body tau st tp p = Ok st' ∧ shape <$> st' = shape <$> st.
Proof.
  intros (t & s & Ht & Hs & Hts). eexists. split.
  - by eapply soft_update_body_paired.
  - by eapply insert_same_shape.
Qed.

Lemma for_zip_ok body target source st :
  (∀ s tp p, paired s tp p →
     ∃ s', body s tp p = Ok s' ∧ shape <$> s' = shape <$> s) →
  Forall2 (paired st) target source →
  ∃ st', for_zip body target source st = Ok st' ∧ shape <$> st' = shape <$> st.
Proof.
  intros Hbody. revert source st.
  induction target as [|tp target IH]; intros source st Hp.
  - apply Forall2_nil_inv_l in Hp as ->. by exists st.
  - apply Forall2_cons_inv_l in Hp as (p & source' & Hhd & Hp & ->).
    destruct (Hbody _ _ _ Hhd) as (s1 & Hs1 & E1). cbn. rewrite Hs1. cbn.
    destruct (IH source' s1) as (st' & Hrun & E).
    { eapply Forall2_impl; [done|]. intros ??. by apply paired_shapes. }
    exists st'. split; [done|]. by rewrite E.
Qed.

(** A loop whose body stores [f t x] at the target parameter, for the
    tensors [t] and [x] it finds at the pair, leaves [f t x] at every target
    parameter, for the tensors of the store the loop started from. *)
Lemma for_zip_writes (f : tensor → tensor → tensor) body target source st :
  (∀ s tp p t x, s !! tp = Some t → s !! p = Some x → shape t = shape x →
     body s tp p = Ok (<[tp := f t x]> s)) →
  (∀ l s tp p s', body s tp p = Ok s' → l ≠ tp → s' !! l = s !! l) →
  NoDup target →
  Forall2 (paired st) target source →
  shared_in_place target source →
  ∃ st', for_zip body target source st = Ok st' ∧
    ∀ i tp p t x, target !! i = Some tp → source !! i = Some p →
      st !! tp = Some t → st !! p = Some x → st' !! tp = Some (f t x).
Proof.
  intros Hbody Hframe. revert source st.
  induction target as [|tp target IH]; intros source st Hnd Hp Hsh.
  - apply Forall2_nil_inv_l in Hp as ->. exists st. split; [done|].
    intros i tp p t x H. by rewrite lookup_nil in H.
  - apply Forall2_cons_inv_l in Hp as (p & source' & (t & s & Ht & Hs & Hts) & Hp & ->).
    apply NoDup_cons in Hnd as [Hnotin Hnd].
    assert (Htl : ∀ j q, source' !! j = Some q → q ≠ tp).
    { intros j q Hq ->. by specialize (Hsh 0%nat (S j) tp tp eq_refl Hq eq_refl). }
    assert (Hin : ∀ j q, target !! j = Some q → q ≠ tp).
    { intros j q Hq ->. apply Hnotin. by eapply list_elem_of_lookup_2. }
    cbn. rewrite (Hbody _ _ _ _ _ Ht Hs Hts). cbn.
    destruct (IH source' (<[tp := f t s]> st)) as (st' & Hrun & Hall); [done| |..].
    + apply Forall2_same_length_lookup. split; [by eapply Forall2_length|].
      intros j tq q Htq Hq.
      destruct (Forall2_lookup_lr _ _ _ _ _ _ Hp Htq Hq) as (t' & s' & ? & ? & ?).
      exists t', s'. rewrite !lookup_insert_ne; [done| |].
      * intros ->. by eapply Htl.
      * intros ->. by eapply Hin.
    + intros i j tq q Htq Hq Heq.
      by specialize (Hsh (S i) (S j) tq q Htq Hq Heq) as [= ->].
    + exists st'. split; [done|]. intros [|i] tq q t' x Htq Hq Ht' Hx; cbn in *.
      * injection Htq as <-. injection Hq as <-.
        rewrite (for_zip_frame _ _ _ _ _ tp (Hframe tp) Hrun Hnotin).
        rewrite lookup_insert_eq. congruence.
      * apply (Hall i tq q t' x Htq Hq).
        -- rewrite lookup_insert_ne; [done|]. intros ->. by eapply Hin.
        -- rewrite lookup_insert_ne; [done|]. intros ->. by eapply Htl.
Qed.

(** C9: with networks of different lengths the updates run over the paired
    prefix alone: they are the updates of the two prefixes, they leave every
    tensor outside the target prefix as it was, among them the target
    parameters beyond the prefix, and they raise nothing when the paired
    parameters have equal shapes; and every target parameter of the prefix is
    updated from its source parameter, by a copy or by the blend, when a
    tensor that both prefixes hold sits at the same position in both. *)
Theorem update_paired_prefix_only source target tau st :
  let n := Nat.min (length source) (length target) in
  (hard_update source target st = hard_update (take n source) (take n target) st ∧
   soft_update source target tau st = soft_update (take n source) (take n target) tau st) ∧
  (∀ st', hard_update source target st = Ok st' ∨ soft_update source target tau st = Ok st' →
     (∀ l, l ∉ take n target → st' !! l = st !! l) ∧
     (NoDup target → ∀ i tp, (n ≤ i)%nat → target !! i = Some tp → st' !! tp = st !! tp)) ∧
  (Forall2 (paired st) (take n target) (take n source) →
     (∃ st', hard_update source target st = Ok st') ∧
     (∃ st', soft_update source target tau st = Ok st')) ∧
  (NoDup target →
   Forall2 (paired st) (take n target) (take n source) →
   shared_in_place (take n target) (take n source) →
   ∃ sh ss,
     hard_update source target st = Ok sh ∧
     soft_update source target tau st = Ok ss ∧
     ∀ i tp p t x, target !! i = Some tp → source !! i = Some p →
       st !! tp = Some t → st !! p = Some x →
       sh !! tp = Some x ∧
       ss !! tp = Some (Tensor (shape t) (blend tau (data t) (data x)))).
Proof.
  intros n. unfold hard_update, soft_update.
  assert (Hframe : ∀ st',
    for_zip hard_update_body target source st = Ok st' ∨
    for_zip (soft_update_body tau) target source st = Ok st' →
    ∀ l, l ∉ take n target → st' !! l = st !! l).
  { intros st' [H|H] l Hl; rewrite for_zip_take in H; fold n in H.
    - eapply for_zip_frame; [|done..]. apply hard_update_body_frame.
    - eapply for_zip_frame; [|done..]. apply soft_update_body_frame. }
  split; [split; apply for_zip_take|]. split; [|split].
  - intros st' H. split; [by apply Hframe|].
    intros Hnd i tp Hi Htp. apply (Hframe st' H).
    intros Hin. apply list_elem_of_lookup in Hin as [j Hj].
    pose proof (lookup_lt_Some _ _ _ Hj) as Hlt. rewrite length_take in Hlt.
    rewrite lookup_take_lt in Hj by lia.
    pose proof (NoDup_lookup _ _ _ _ Hnd Hj Htp). lia.
  - intros Hp. rewrite !(for_zip_take _ target source). fold n. split.
    + destruct (for_zip_ok hard_update_body _ _ _ hard_update_body_ok Hp) as (st' & ? & _).
      by exists st'.
    + destruct (for_zip_ok _ _ _ _ (soft_update_body_ok tau) Hp) as (st' & ? & _).
      by exists st'.
  - intros Hnd Hp Hsh. rewrite !(for_zip_take _ target source). fold n.
    assert (Hnd' : NoDup (take n target)).
    { eapply sublist_NoDup; [done | apply sublist_take]. }
    destruct (for_zip_writes (λ t x, Tensor (shape t) (data x)) hard_update_body
                (take n target) (take n source) st) as (sh & Hh & Hhall); [| |done..|].
    { intros s tp p t x Ht Hx Hs.
      rewrite (hard_update_body_paired _ _ _ _ _ Ht Hx Hs).
      destruct x as [sx dx]. cbn in *. by rewrite Hs. }
    { intros l. apply hard_update_body_frame. }
    destruct (for_zip_writes (λ t x, Tensor (shape t) (blend tau (data t) (data x)))
                (soft_update_body tau) (take n target) (take n source) st)
      as (ss & Hs & Hsall); [| |done..|].
    { intros s tp p t x Ht Hx Hsx. by apply soft_update_body_paired. }
    { intros l. apply soft_update_body_frame. }
    exists sh, ss. split; [done|]. split; [done|].
    intros i tp p t x Htp Hp' Ht Hx.
    assert (Hi : (i < n)%nat).
    { apply lookup_lt_Some in Htp, Hp'. unfold n. lia. }
    assert (Htp2 : take n target !! i = Some tp) by by rewrite lookup_take_lt.
    assert (Hp2 : take n source !! i = Some p) by by rewrite lookup_take_lt.
    split.
    + rewrite (Hhall i tp p t x Htp2 Hp2 Ht Hx).
      destruct (Forall2_lookup_lr _ _ _ _ _ _ Hp Htp2 Hp2) as (t' & x' & ? & ? & Hsx).
      destruct x as [sx dx]. cbn. f_equal. f_equal.
      assert (t' = t) by congruence. assert (x' = Tensor sx dx) by congruence.
      subst. done.
    + exact (Hsall i tp p t x Htp2 Hp2 Ht Hx).
Qed.

(** *** The blend factors zero and one *)

Lemma rel_store_refl st : rel_store up_to_zero_sign st st.
Proof.
  intros l. destruct (st !! l) as [t|]; [|done]. split; [done|].
  induction (data t); constructor; auto using up_to_zero_sign_refl.
Qed.

Lemma rel_store_lookup R a b l y :
  rel_store R a b → b !! l = Some y →
  ∃ x, a !! l = Some x ∧ shape x = shape y ∧ Forall2 R (data x) (data y).
Proof.
  intros H Hy. specialize (H l). rewrite Hy in H.
  destruct (a !! l) as [x|]; [|done]. by exists x.
Qed.

Lemma rel_store_insert R a b l x y :
  rel_store R a b → shape x = shape y → Forall2 R (data x) (data y) →
  rel_store R (<[l := x]> a) (<[l := y]> b).
Proof.
  intros H Hs Hd l'. destruct (decide (l = l')) as [->|Hne].
  - by rewrite !lookup_insert_eq.
  - rewrite !lookup_insert_ne by done. apply H.
Qed.

Lemma blend_keep_list (dt' dt ds' ds : list spec_float) :
  Forall2 up_to_zero_sign dt' dt → Forall2 up_to_zero_sign ds' ds →
  length dt = length ds →
  Forall (λ x, f32_valid x = true) dt → Forall (λ x, is_finite x = true) ds →
  Forall2 up_to_zero_sign
    (zip_with_f f32_add (map (λ x, f32_mul x f32_1_0) dt')
                        (map (λ x, f32_mul x f32_0_0) ds')) dt.
Proof.
  intros Ht. revert ds' ds. induction Ht as [|x' x dt' dt Hx Ht IH]; intros ds' ds Hs Hlen Hv Hf.
  - destruct ds; [|done]. apply Forall2_nil_inv_r in Hs as ->. constructor.
  - destruct Hs as [|y' y ds' ds Hy Hs]; [done|].
    apply Forall_cons in Hv as [Hvx Hv]. apply Forall_cons in Hf as [Hfy Hf].
    cbn. constructor.
    + eapply up_to_zero_sign_trans; [|exact Hx].
      apply blend_keep; eauto using up_to_zero_sign_valid, up_to_zero_sign_finite.
    + eapply IH; eauto.
Qed.

Lemma blend_replace_list (dt' ds' dsh : list spec_float) :
  Forall2 up_to_zero_sign ds' dsh → length dt' = length ds' →
  Forall (λ x, is_finite x = true) dt' → Forall (λ x, f32_valid x = true) ds' →
  let v := zip_with_f f32_add (map (λ x, f32_mul x f32_0_0) dt')
                              (map (λ x, f32_mul x f32_1_0) ds') in
  Forall2 up_to_zero_sign v dsh ∧ Forall (λ x, f32_valid x = true) v ∧
  length v = length dt'.
Proof.
  intros Hs. revert dt'. induction Hs as [|y' y ds' dsh Hy Hs IH]; intros dt' Hlen Hf Hv.
  - destruct dt'; [|done]. cbn. repeat split; constructor.
  - destruct dt' as [|x' dt']; [done|].
    apply Forall_cons in Hv as [Hvy Hv]. apply Forall_cons in Hf as [Hfx Hf].
    destruct (IH dt') as (IH1 & IH2 & IH3); [by injection Hlen|done..|].
    pose proof (blend_replace x' y' Hfx Hvy) as Hb.
    cbn. repeat split.
    + constructor; [|done]. by eapply up_to_zero_sign_trans.
    + constructor; [|done]. by eapply up_to_zero_sign_valid.
    + by rewrite IH3.
Qed.

Lemma soft_update_zero_keeps st target source cur :
  store_ok st → finite_at st source →
  Forall2 (paired st) target source →
  rel_store up_to_zero_sign cur st →
  ∃ st', for_zip (soft_update_body f64_0_0) target source cur = Ok st' ∧
         rel_store up_to_zero_sign st' st.
Proof.
  intros Hok. revert source cur.
  induction target as [|tp target IH]; intros source cur Hfin Hp Hrel.
  - apply Forall2_nil_inv_l in Hp as ->. by exists cur.
  - apply Forall2_cons_inv_l in Hp as (p & source' & (t & s & Ht & Hs & Hts) & Hp & ->).
    destruct (rel_store_lookup _ _ _ _ _ Hrel Ht) as (t' & Ht' & Hst' & Hdt').
    destruct (rel_store_lookup _ _ _ _ _ Hrel Hs) as (s' & Hs' & Hss' & Hds').
    cbn [for_zip]. rewrite (soft_update_body_paired _ _ _ _ t' s') by congruence.
    cbn [bind]. destruct tau_zero_scalars as [-> ->].
    apply IH.
    + intros q tq Hq. apply Hfin. by right.
    + done.
    + rewrite <- (insert_id st tp t) by done.
      apply rel_store_insert; [done..|]. cbn.
      destruct (Hok _ _ Ht) as [Hwt Hvt]. destruct (Hok _ _ Hs) as [Hws _].
      apply blend_keep_list with (data s); try done.
      * unfold wf_tensor in *. by rewrite Hwt, Hws, Hts.
      * eapply Hfin; [by left|done].
Qed.

Lemma soft_update_one_replaces target source cs ch :
  NoDup target →
  Forall2 (paired ch) target source →
  rel_store up_to_zero_sign cs ch →
  store_ok cs → finite_at cs target →
  ∃ s1 s2, for_zip (soft_update_body f64_1_0) target source cs = Ok s1 ∧
           for_zip hard_update_body target source ch = Ok s2 ∧
           rel_store up_to_zero_sign s1 s2.
Proof.
  revert source cs ch.
  induction target as [|tp target IH]; intros source cs ch Hnd Hp Hrel Hok Hfin.
  - apply Forall2_nil_inv_l in Hp as ->. by exists cs, ch.
  - apply Forall2_cons_inv_l in Hp as (p & source' & (t & s & Ht & Hs & Hts) & Hp & ->).
    apply NoDup_cons in Hnd as [Hnotin Hnd].
    destruct (rel_store_lookup _ _ _ _ _ Hrel Ht) as (t' & Ht' & Hst' & Hdt').
    destruct (rel_store_lookup _ _ _ _ _ Hrel Hs) as (s' & Hs' & Hss' & Hds').
    cbn [for_zip]. rewrite (soft_update_body_paired _ _ _ _ t' s') by congruence.
    rewrite (hard_update_body_paired _ _ _ _ _ Ht Hs Hts). cbn [bind].
    destruct tau_one_scalars as [-> ->].
    destruct (Hok _ _ Ht') as [Hwt' _]. destruct (Hok _ _ Hs') as [Hws' Hvs'].
    destruct (blend_replace_list (data t') (data s') (data s)) as (B1 & B2 & B3);
      [done| |by eapply Hfin; [left|]|done|].
    { unfold wf_tensor in *. by rewrite Hwt', Hws', Hst', Hss', Hts. }
    apply IH; [done| | | |].
    + eapply Forall2_impl; [done|]. intros ??. apply paired_shapes.
      by eapply insert_same_shape.
    + apply rel_store_insert; [done| |done]. cbn. congruence.
    + intros l x. destruct (decide (tp = l)) as [->|Hne].
      * rewrite lookup_insert_eq. intros [= <-]. split; [|done].
        unfold wf_tensor in *. cbn. by rewrite B3.
      * rewrite lookup_insert_ne by done. apply Hok.
    + intros q tq Hq. rewrite lookup_insert_ne.
      * apply Hfin. by right.
      * intros ->. done.
Qed.

(** C2, as amended: with blend factor zero soft_update leaves each element of
    each parameter as it was, where the source elements are finite; with
    blend factor one it leaves what hard_update leaves, where the target
    elements are finite; both up to a negative zero that has become
    positive.  The parameters are paired with equal shapes and hold binary32
    values. *)
Theorem soft_update_zero_one source target st :
  NoDup target →
  Forall2 (paired st) target source →
  store_ok st →
  (finite_at st source →
     ∃ st', soft_update source target f64_0_0 st = Ok st' ∧
            rel_store up_to_zero_sign st' st) ∧
  (finite_at st target →
     ∃ s1 s2, soft_update source target f64_1_0 st = Ok s1 ∧
              hard_update source target st = Ok s2 ∧
              rel_store up_to_zero_sign s1 s2).
Proof.
  intros Hnd Hp Hok. split; intros Hfin.
  - apply soft_update_zero_keeps; auto using rel_store_refl.
  - apply soft_update_one_replaces; auto using rel_store_refl.
Qed.

(** *** Examples *)

Ltac in_sample_store H :=
  apply elem_of_list_to_map_2 in H;
  repeat (apply elem_of_cons in H as [H|H]; [injection H as -> ->|]);
  try by apply elem_of_nil in H.

Lemma store4_ok : store_ok store4.
Proof.
  intros l t H. in_sample_store H; (split; [reflexivity | by repeat constructor]).
Qed.

Lemma store4_finite ps : finite_at store4 ps.
Proof. intros p t _ H. in_sample_store H; by repeat constructor. Qed.

Lemma store4_paired tp p :
  (tp < 4)%nat → (p < 4)%nat → paired store4 tp p.
Proof.
  intros Htp Hp.
  destruct tp as [|[|[|[|?]]]]; try lia; destruct p as [|[|[|[|?]]]]; try lia;
    eexists _, _; repeat split; reflexivity.
Qed.

(** Two networks without a common tensor. *)
Lemma hard_update_copies_source_witness :
  ∃ st', hard_update [2; 3]%nat [0; 1]%nat store4 = Ok st' ∧
    ∀ i tp p, [0; 1]%nat !! i = Some tp → [2; 3]%nat !! i = Some p →
      st' !! tp = store4 !! p ∧ st' !! tp = st' !! p.
Proof.
  apply hard_update_copies_source.
  - compute_done.
  - repeat constructor; apply store4_paired; lia.
  - intros [|[|i]] [|[|j]] tp p; cbn; intros; simplify_eq; done.
Defined.

(** C1 as stated fails when the networks hold tensors in common at different
    positions: with target parameters [0; 1; 3] and source parameters
    [1; 2; 0], all of one shape, the first target parameter ends different
    from the first source parameter as it is after the call, and the third
    ends different from the third source parameter as it was before. *)
Lemma hard_update_shared_tensors_differ :
  NoDup [0; 1; 3]%nat ∧
  Forall2 (paired store4) [0; 1; 3]%nat [1; 2; 0]%nat ∧
  ∃ st', hard_update [1; 2; 0]%nat [0; 1; 3]%nat store4 = Ok st' ∧
    st' !! 0%nat ≠ st' !! 1%nat ∧ st' !! 3%nat ≠ store4 !! 0%nat.
Proof.
  split; [|split].
  - compute_done.
  - repeat constructor; apply store4_paired; lia.
  - eexists. split; [reflexivity|]. split; vm_compute; discriminate.
Qed.

Lemma soft_update_zero_one_witness :
  (∃ st', soft_update [2; 3]%nat [0; 1]%nat f64_0_0 store4 = Ok st' ∧
          rel_store up_to_zero_sign st' store4) ∧
  (∃ s1 s2, soft_update [2; 3]%nat [0; 1]%nat f64_1_0 store4 = Ok s1 ∧
            hard_update [2; 3]%nat [0; 1]%nat store4 = Ok s2 ∧
            rel_store up_to_zero_sign s1 s2).
Proof.
  destruct (soft_update_zero_one [2; 3]%nat [0; 1]%nat store4) as [H0 H1].
  - compute_done.
  - repeat constructor; apply store4_paired; lia.
  - apply store4_ok.
  - split; [apply H0 | apply H1]; apply store4_finite.
Defined.

(** C2 as stated fails on parameters that are not finite: with blend factor
    zero an infinite source element turns the target element into a NaN, and
    with blend factor one an infinite target element becomes a NaN where
    hard_update stores the source element. *)
Lemma soft_update_not_finite_differs :
  Forall2 (paired store_inf) [0%nat] [1%nat] ∧
  Forall2 (paired store_inf) [1%nat] [0%nat] ∧
  (∃ st', soft_update [1%nat] [0%nat] f64_0_0 store_inf = Ok st' ∧
          st' !! 0%nat = Some (vec [S754_nan]) ∧
          store_inf !! 0%nat = Some (vec [f32_1_0])) ∧
  (∃ s1 s2, soft_update [0%nat] [1%nat] f64_1_0 store_inf = Ok s1 ∧
            hard_update [0%nat] [1%nat] store_inf = Ok s2 ∧
            s1 !! 1%nat = Some (vec [S754_nan]) ∧
            s2 !! 1%nat = Some (vec [f32_1_0])).
Proof.
  repeat split.
  - repeat constructor. eexists _, _. repeat split; reflexivity.
  - repeat constructor. eexists _, _. repeat split; reflexivity.
  - eexists. repeat split; reflexivity.
  - eexists _, _. repeat split; reflexivity.
Qed.

(** A source network of one parameter against a target network of two. *)
Lemma update_paired_prefix_only_witness :
  ∃ sh ss,
    hard_update [2%nat] [0; 1]%nat store4 = Ok sh ∧
    soft_update [2%nat] [0; 1]%nat f64_0_5 store4 = Ok ss ∧
    ∀ i tp p t x, [0; 1]%nat !! i = Some tp → [2%nat] !! i = Some p →
      store4 !! tp = Some t → store4 !! p = Some x →
      sh !! tp = Some x ∧
      ss !! tp = Some (Tensor (shape t) (blend f64_0_5 (data t) (data x))).
Proof.
  apply (update_paired_prefix_only [2%nat] [0; 1]%nat f64_0_5 store4).
  - compute_done.
  - repeat constructor. apply store4_paired; lia.
  - intros [|i] [|j] tp p; cbn; intros; simplify_eq; done.
Defined.

Example hard_update_shorter_source :
  ∃ st', hard_update [2%nat] [0; 1]%nat store4 = Ok st' ∧
    st' !! 0%nat = store4 !! 2%nat ∧ st' !! 1%nat = store4 !! 1%nat.
Proof. eexists. repeat split; reflexivity. Qed.

(** ** reparameterize *)

Lemma iter_pos_preserves {A} (P : A → Prop) (f : A → A) :
  (∀ x, P x → P (f x)) → ∀ p x, P x → P (SpecFloat.iter_pos f p x).
Proof. intros Hf. induction p; cbn; auto. Qed.

Lemma shr_1_nonneg mrs : 0 ≤ shr_m mrs → 0 ≤ shr_m (shr_1 mrs).
Proof. destruct mrs as [[|[p|p|]|p] r s]; cbn; lia. Qed.

Lemma shr_nonneg mrs e n : 0 ≤ shr_m mrs → 0 ≤ shr_m (fst (shr mrs e n)).
Proof.
  intros H. destruct n; cbn; try done.
  by apply (iter_pos_preserves (λ x, 0 ≤ shr_m x)), H; apply shr_1_nonneg.
Qed.

Lemma shr_record_of_loc_m m l : shr_m (shr_record_of_loc m l) = m.
Proof. by destruct l as [|[]]. Qed.

Lemma round_nearest_even_nonneg m l : 0 ≤ m → 0 ≤ round_nearest_even m l.
Proof. intros H. destruct l as [|[]]; cbn; try destruct (Z.even m); lia. Qed.

(** Rounding a non-negative mantissa never yields a NaN. *)
Lemma binary_round_aux_not_nan prec emax s m e l :
  0 ≤ m → is_nan (binary_round_aux prec emax s m e l) = false.
Proof.
  intros Hm. unfold binary_round_aux, shr_fexp.
  pose proof (shr_nonneg (shr_record_of_loc m l) e
    (fexp prec emax (Zdigits2 m + e) - e)) as H1.
  rewrite shr_record_of_loc_m in H1. specialize (H1 Hm).
  destruct (shr (shr_record_of_loc m l) e _) as [mrs' e']. cbn in H1.
  set (m' := round_nearest_even (shr_m mrs') (loc_of_shr_record mrs')).
  assert (Hm' : 0 ≤ m') by by apply round_nearest_even_nonneg.
  pose proof (shr_nonneg (shr_record_of_loc m' loc_Exact) e'
    (fexp prec emax (Zdigits2 m' + e') - e')) as H2.
  specialize (H2 Hm').
  destruct (shr (shr_record_of_loc m' loc_Exact) e' _) as [mrs'' e'']. cbn in H2.
  destruct (shr_m mrs'') as [|p|p]; [done| |lia].
  by destruct (e'' <=? emax - prec).
Qed.

Lemma half_not_nan x :
  is_nan x = false → is_nan (f32_mul x (f32_of_f64 f64_0_5)) = false.
Proof.
  destruct x as [s|s| |s m e]; try done. intros _.
  change (f32_of_f64 f64_0_5) with (S754_finite false 8388608 (-24)).
  unfold f32_mul, SFmul. by apply binary_round_aux_not_nan.
Qed.

Lemma fclamp_in_range x :
  is_nan x = false →
  in_clamp_range (fclamp (f32_of_f64 (f64_of_int (-4))) (f32_of_f64 (f64_of_int 15)) x).
Proof.
  intros Hx. unfold in_clamp_range, fclamp. rewrite Hx.
  destruct (f32_ltb x _) eqn:E1; [by vm_compute|].
  destruct (f32_ltb _ x) eqn:E2; [by vm_compute|]. done.
Qed.

(** [0.0 * y + m] is [m] when [y] is finite. *)
Lemma zero_times_plus y m :
  is_finite y = true →
  up_to_zero_sign (f32_add (f32_mul f32_0_0 y) m) m.
Proof.
  intros Hy. destruct y as [sy|sy| |sy my ey]; try discriminate;
    destruct m as [sm|sm| |sm mm em]; destruct sy; try destruct sm;
    cbn; auto using up_to_zero_sign_refl; by right.
Qed.

Lemma zero_times_plus_list (es std mu : list spec_float) :
  Forall (λ x, x = f32_0_0) es → Forall (λ x, is_finite x = true) std →
  length es = length mu → length std = length mu →
  Forall2 up_to_zero_sign
    (zip_with_f f32_add (zip_with_f f32_mul es std) mu) mu.
Proof.
  revert es std. induction mu as [|m mu IH]; intros es std Hes Hstd Hl1 Hl2.
  - destruct es; [|done]. destruct std; [|done]. constructor.
  - destruct es as [|e es]; [done|]. destruct std as [|s std]; [done|].
    apply Forall_cons in Hes as [-> Hes]. apply Forall_cons in Hstd as [Hs Hstd].
    cbn. constructor; [by apply zero_times_plus|].
    apply IH; auto.
Qed.

Lemma tbinop_same_shape f a b :
  shape a = shape b →
  tbinop f a b = Ok (Tensor (shape a) (zip_with_f f (data a) (data b))) ∧
  tbinop_ f a b = Ok (Tensor (shape a) (zip_with_f f (data a) (data b))).
Proof.
  intros H. unfold tbinop, tbinop_, shape_eqb. by rewrite bool_decide_eq_true_2.
Qed.

(** *** Broadcasting to the shape a tensor already has *)

Lemma length_zip_with_f f a b :
  length (zip_with_f f a b) = Nat.min (length a) (length b).
Proof.
  revert b. induction a as [|x a IH]; intros [|y b]; cbn; auto.
Qed.

Lemma chunks_concat {A} n k (d : list A) :
  length d = (n * k)%nat →
  concat (chunks n k d) = d ∧ Forall (λ c, length c = k) (chunks n k d).
Proof.
  revert d. induction n as [|n IH]; intros d Hd; cbn.
  - by destruct d.
  - destruct (IH (drop k d)) as [IH1 IH2]; [rewrite length_drop; lia|].
    rewrite IH1, take_drop. split; [done|].
    constructor; [rewrite length_take; lia | done].
Qed.

Lemma expand_data_same {A} ts (d : list A) :
  length d = numel ts → expand_data ts ts d = d.
Proof.
  revert d. induction ts as [|t ts IH]; intros d Hd; [done|].
  cbn. rewrite Nat.eqb_refl.
  destruct (chunks_concat t (numel ts) d Hd) as [Hc Hl].
  assert (Hmap : ∀ cs : list (list A), Forall (λ c, length c = numel ts) cs →
                 map (expand_data ts ts) cs = cs).
  { intros cs Hcs. induction Hcs as [|c cs Hcl _ IHl]; [done|].
    cbn. by rewrite IH, IHl. }
  by rewrite Hmap.
Qed.

Lemma pad_shape_same s : pad_shape (length s) s = s.
Proof. unfold pad_shape. by rewrite Nat.sub_diag. Qed.

Lemma dims_expandable_same s : dims_expandable s s = true.
Proof. induction s as [|x s IH]; [done|]. cbn. by rewrite Nat.eqb_refl, IH. Qed.

Lemma expand_same z : wf_tensor z → expand (shape z) z = Some z.
Proof.
  intros Hz. unfold expand, expandable.
  rewrite pad_shape_same, dims_expandable_same, Nat.leb_refl. cbn.
  rewrite expand_data_same by done. by destruct z.
Qed.

Lemma broadcast_dims_expandable ss ts :
  dims_expandable ss ts = true → broadcast_dims ts ss = Some ts.
Proof.
  revert ts. induction ss as [|s ss IH]; intros [|t ts]; cbn; try done.
  intros [Hd Hrest]%andb_prop. rewrite (IH _ Hrest).
  destruct (Nat.eqb_spec t s) as [->|Hne]; [done|].
  destruct (Nat.eqb_spec s t) as [->|_]; [done|]. cbn in Hd.
  destruct (Nat.eqb_spec t 1) as [->|_].
  - apply Nat.eqb_eq in Hd. by subst.
  - by rewrite Hd.
Qed.

Lemma broadcast_shapes_expandable ss ts :
  expandable ss ts = true → broadcast_shapes ts ss = Some ts.
Proof.
  unfold expandable, broadcast_shapes. intros [Hl Hd]%andb_prop.
  apply Nat.leb_le in Hl. rewrite Nat.max_l by done.
  rewrite pad_shape_same. by apply broadcast_dims_expandable.
Qed.

(** [a + b] and [a.add_(b)] agree when [b] can be broadcast to the shape of
    [a]. *)
Lemma tbinop_expandable f a b :
  wf_tensor a → expandable (shape b) (shape a) = true →
  tbinop f a b = tbinop_ f a b.
Proof.
  intros Ha Hb. unfold tbinop, tbinop_.
  destruct (shape_eqb (shape a) (shape b)); [done|].
  rewrite (broadcast_shapes_expandable _ _ Hb), (expand_same a Ha).
  by destruct (expand (shape a) b).
Qed.

(** C3, as amended: for a [mu] that has the shape of [logvar] or can be
    broadcast to it reparameterize returns, and computes the formula of the
    description, [eps] being what the generator of the standard normal
    distribution yields for the shape of [std]; and for a [mu] of the shape
    of [logvar], when the generator yields zeros, [logvar] holds no NaN and
    the exponential is finite between the bounds of the clamp, the result has
    the elements of [mu], up to a negative zero that has become positive. *)
Theorem reparameterize_formula_zero_draw exp draw mu logvar :
  wf_tensor logvar →
  (shape mu = shape logvar ∨ expandable (shape mu) (shape logvar) = true →
   reparameterize exp draw mu logvar = reparameterize_spec exp draw mu logvar ∧
   ∃ z, reparameterize exp draw mu logvar = Ok z ∧ shape z = shape logvar) ∧
  (shape mu = shape logvar →
   (∀ x, in_clamp_range x → is_finite (exp x) = true) →
   (∀ n, draw n = f32_0_0) →
   wf_tensor mu →
   Forall (λ x, is_nan x = false) (data logvar) →
   ∃ z, reparameterize exp draw mu logvar = Ok z ∧
        shape z = shape mu ∧
        Forall2 up_to_zero_sign (data z) (data mu)).
Proof.
  intros Hwlv. unfold reparameterize, reparameterize_spec.
  set (std := texp exp (clamp (tmul_scalar logvar f64_0_5) (-4) 15)).
  set (eps := new_normal_ draw (shape std)).
  destruct (tbinop_same_shape f32_mul eps std eq_refl) as [Hmul _].
  unfold tmul. rewrite Hmul. cbn [bind].
  match goal with |- (_ → tadd_ ?z _ = _ ∧ _) ∧ _ => set (es := z) end.
  assert (Hwes : wf_tensor es).
  { unfold wf_tensor in *. cbn. rewrite length_zip_with_f, !length_map, length_seq.
    cbn. rewrite Hwlv. unfold numel. lia. }
  split.
  - intros Hmu. unfold tadd, tadd_. split.
    + destruct Hmu as [Hmu|Hmu].
      * assert (Hes : shape es = shape mu) by (cbn; congruence).
        destruct (tbinop_same_shape f32_add es mu Hes) as [-> ->]. done.
      * symmetry. by apply tbinop_expandable.
    + unfold tbinop_, shape_eqb, expand. cbn [shape es eps std texp clamp tmul_scalar new_normal_].
      destruct (bool_decide (shape logvar = shape mu)) eqn:E; [by eexists|].
      destruct Hmu as [Hmu|Hmu].
      * rewrite bool_decide_eq_true_2 in E by done. done.
      * rewrite Hmu. by eexists.
  - intros Hsh Hexp Hdraw Hwmu Hnan.
    assert (Hes : shape es = shape mu) by (cbn; congruence).
    destruct (tbinop_same_shape f32_add es mu Hes) as [_ Hadd_].
    unfold tadd_. rewrite Hadd_.
    eexists. split; [done|]. split; [done|].
    cbn [data shape es eps std texp clamp tmul_scalar new_normal_].
    unfold wf_tensor in *.
    apply zero_times_plus_list.
    + apply Forall_map, Forall_forall. intros ? _. apply Hdraw.
    + rewrite !Forall_map. eapply Forall_impl; [exact Hnan|].
      intros x Hx. cbn. by apply Hexp, fclamp_in_range, half_not_nan.
    + rewrite length_map, length_seq. congruence.
    + rewrite !length_map. congruence.
Qed.

Lemma sample_exp_finite x : in_clamp_range x → is_finite (sample_exp x) = true.
Proof.
  intros (Hn & Hlo & Hhi). destruct x as [s|[]| |[] m e]; try done.
Qed.

(** A [mu] of one element against a [logvar] of two, and a [mu] of the shape
    of [logvar] with a generator that yields zeros. *)
Lemma reparameterize_formula_zero_draw_witness :
  (reparameterize sample_exp zero_draw (vec [f32_3_0]) (vec [f32_2_0; S754_infinity false]) =
   reparameterize_spec sample_exp zero_draw (vec [f32_3_0]) (vec [f32_2_0; S754_infinity false]) ∧
   ∃ z, reparameterize sample_exp zero_draw (vec [f32_3_0])
          (vec [f32_2_0; S754_infinity false]) = Ok z ∧ shape z = [2%nat]) ∧
  (∃ z, reparameterize sample_exp zero_draw (vec [f32_3_0; f32_1_0])
          (vec [f32_2_0; S754_infinity false]) = Ok z ∧
        shape z = [2%nat] ∧
        Forall2 up_to_zero_sign (data z) [f32_3_0; f32_1_0]).
Proof.
  split.
  - apply (reparameterize_formula_zero_draw sample_exp zero_draw
             (vec [f32_3_0]) (vec [f32_2_0; S754_infinity false])); [done|by right].
  - apply (reparameterize_formula_zero_draw sample_exp zero_draw
             (vec [f32_3_0; f32_1_0]) (vec [f32_2_0; S754_infinity false]));
      try done.
    + apply sample_exp_finite.
    + by repeat constructor.
Defined.

(** C3 as stated fails in three ways, whatever the exponential is: a [mu]
    of another shape than [logvar] does not come back, a NaN in [logvar]
    reaches the result when the exponential of a NaN is a NaN, and a
    negative zero in [mu] comes back positive when the exponential of zero
    is one.  The formula and the code also part on shapes: with a [mu] of two
    elements and a [logvar] of one the formula broadcasts and the in-place
    addition of the code raises. *)
Lemma reparameterize_zero_draw_not_mu :
  (¬ ∃ exp, reparameterize exp zero_draw (vec [f32_1_0]) (vec [f32_0_0; f32_0_0])
            = Ok (vec [f32_1_0])) ∧
  (¬ ∃ exp, exp S754_nan = S754_nan ∧
            reparameterize exp zero_draw (vec [f32_1_0]) (vec [S754_nan])
            = Ok (vec [f32_1_0])) ∧
  (¬ ∃ exp, exp f32_0_0 = f32_1_0 ∧
            reparameterize exp zero_draw (vec [S754_zero true]) (vec [f32_0_0])
            = Ok (vec [S754_zero true])) ∧
  (∃ z, reparameterize_spec sample_exp zero_draw
          (vec [f32_1_0; f32_1_0]) (vec [f32_0_0]) = Ok z ∧
        reparameterize sample_exp zero_draw
          (vec [f32_1_0; f32_1_0]) (vec [f32_0_0]) = Raise RuntimeError).
Proof.
  split; [|split; [|split]].
  - intros [exp H]. vm_compute in H. discriminate.
  - intros [exp [Hn H]]. vm_compute in H. rewrite Hn in H. discriminate.
  - intros [exp [H0 H]]. vm_compute in H. unfold f32_0_0 in H0. rewrite H0 in H.
    discriminate.
  - eexists. split; reflexivity.
Qed.

(** ** backprop_for_loss *)

Section BackpropFacts.
Context {optimizer_t loss_t : Type}.
Variable zero_grad : optimizer_t → params_state → result params_state.
Variable backward : loss_t → bool → params_state → result params_state.
Variable clip_grad_norm_ : network → spec_float → params_state → result params_state.
Variable step : optimizer_t → params_state → result params_state.
Variable norm2 : tensor → spec_float.


Lemma framework_ok c f w s :
  f (pstate w) = Ok s →
  framework c f w = (Ok tt, {| pstate := s; calls := calls w ++ [c] |}).
Proof. intros H. unfold framework. by rewrite H. Qed.

End BackpropFacts.


(** ** lr_scheduler_from_optim_params *)

(** C5: with a list under [learning_rate.epoch_schedule], the function
    returns [None] exactly when the list is empty, and for a list that is not
    empty and a configured [learning_rate.decay_factor] it returns the
    scheduler made from the optimizer, that list and that factor. *)
Theorem lr_scheduler_none_iff_empty params lr l net optimizer :
  params !! "learning_rate" = Some (CDict lr) →
  lr !! "epoch_schedule" = Some (CList l) →
  (lr_scheduler_from_optim_params (CDict params) net optimizer = Ok None ↔ l = []) ∧
  (l ≠ [] → ∀ g, lr !! "decay_factor" = Some g →
     lr_scheduler_from_optim_params (CDict params) net optimizer =
     Ok (Some {| sched_optimizer := optimizer; milestones := CList l; gamma := g |})).
Proof.
  intros Hlr Hl. unfold lr_scheduler_from_optim_params.
  cbn. rewrite Hlr. cbn. rewrite Hl. cbn.
  destruct l as [|c l]; cbn.
  - split; [done|]. by intros [].
  - split.
    + split; [|done]. by destruct (lr !! "decay_factor").
    + intros _ g Hg. by rewrite Hg.
Qed.

Lemma lr_scheduler_none_iff_empty_witness :
  lr_scheduler_from_optim_params (CDict sample_params) [0%nat]
    {| adam_params := [0%nat]; adam_lr := CFloat f64_0_5; adam_weight_decay := CFloat f64_0_0 |} =
  Ok (Some {| sched_optimizer :=
                {| adam_params := [0%nat]; adam_lr := CFloat f64_0_5;
                   adam_weight_decay := CFloat f64_0_0 |};
              milestones := CList [CInt 10; CInt 20];
              gamma := CFloat f64_0_5 |}).
Proof.
  refine (proj2 (lr_scheduler_none_iff_empty sample_params sample_lr
                   [CInt 10; CInt 20] _ _ _ _) _ _ _); done.
Defined.

Example lr_scheduler_empty_schedule :
  lr_scheduler_from_optim_params
    (CDict (list_to_map [("learning_rate", CDict (list_to_map [("epoch_schedule", CList [])]))]))
    [] {| adam_params := []; adam_lr := CInt 0; adam_weight_decay := CInt 0 |} = Ok None.
Proof. reflexivity. Qed.

Example lr_scheduler_missing_factor :
  lr_scheduler_from_optim_params
    (CDict (list_to_map
       [("learning_rate", CDict (list_to_map [("epoch_schedule", CList [CInt 3])]))]))
    [] {| adam_params := []; adam_lr := CInt 0; adam_weight_decay := CInt 0 |} = Raise KeyError.
Proof. reflexivity. Qed.

(** ** rgetattr and rsetattr *)

#[local] Arguments getattr : simpl never.
#[local] Arguments setattr : simpl never.

Lemma append_cons c a b : String c a +:+ b = String c (a +:+ b).
Proof. reflexivity. Qed.

Lemma append_nil_l b : "" +:+ b = b.
Proof. reflexivity. Qed.

Lemma append_nil_r a : a +:+ "" = a.
Proof. induction a as [|c a IH]; [done|]. by rewrite append_cons, IH. Qed.

Lemma append_assoc a b c : (a +:+ b) +:+ c = a +:+ (b +:+ c).
Proof. induction a as [|x a IH]; [done|]. by rewrite !append_cons, IH. Qed.

Lemma split_dot_dot_free a : dot_free a = true → split_dot a = [a].
Proof.
  induction a as [|c a IH]; [done|]. cbn.
  intros [Hc Ha]%andb_prop. apply negb_true_iff in Hc. by rewrite Hc, IH.
Qed.

Lemma split_dot_app a b :
  dot_free a = true → split_dot (a +:+ "." +:+ b) = a :: split_dot b.
Proof.
  induction a as [|c a IH]; [done|]. rewrite append_cons. cbn.
  intros [Hc Ha]%andb_prop. apply negb_true_iff in Hc. by rewrite Hc, IH.
Qed.

Lemma split_dot_dotted names :
  names ≠ [] → Forall (λ s, dot_free s = true) names →
  split_dot (dotted names) = names.
Proof.
  induction names as [|a [|b names] IH]; [done| |]; intros _ H.
  - apply Forall_cons in H as [Ha _]. by apply split_dot_dot_free.
  - apply Forall_cons in H as [Ha H].
    change (dotted (a :: b :: names)) with (a +:+ "." +:+ dotted (b :: names)).
    rewrite split_dot_app by done. by rewrite IH.
Qed.

Lemma rpartition_dot_dot_free a :
  dot_free a = true → rpartition_dot a = ("", "", a).
Proof.
  induction a as [|c a IH]; [done|]. cbn.
  intros [Hc Ha]%andb_prop. apply negb_true_iff in Hc. by rewrite IH, Hc.
Qed.

Lemma rpartition_dot_app a pre post b :
  rpartition_dot b = (pre, ".", post) →
  rpartition_dot (a +:+ b) = (a +:+ pre, ".", post).
Proof.
  intros H. induction a as [|c a IH]; [done|].
  rewrite append_cons. cbn. by rewrite IH.
Qed.

Lemma dotted_snoc names last :
  names ≠ [] → dotted (names ++ [last]) = dotted names +:+ "." +:+ last.
Proof.
  induction names as [|a [|b names] IH]; [done|done|]. intros _.
  change (dotted ((a :: b :: names) ++ [last]))
    with (a +:+ "." +:+ dotted ((b :: names) ++ [last])).
  rewrite IH by done.
  change (dotted (a :: b :: names)) with (a +:+ "." +:+ dotted (b :: names)).
  by rewrite !append_assoc.
Qed.

Lemma rpartition_dot_dotted names last :
  names ≠ [] → dot_free last = true →
  rpartition_dot (dotted (names ++ [last])) = (dotted names, ".", last).
Proof.
  intros Hne Hl. rewrite dotted_snoc by done.
  rewrite (rpartition_dot_app _ "" last).
  - by rewrite append_nil_r.
  - rewrite append_cons, append_nil_l. cbn. by rewrite rpartition_dot_dot_free.
Qed.

Lemma truthy_dotted names :
  names ≠ [] → Forall (λ s, truthy s = true) names → truthy (dotted names) = true.
Proof.
  destruct names as [|a [|b names]]; [done| |]; intros _ H;
    apply Forall_cons in H as [Ha _]; [done|].
  by destruct a.
Qed.

Lemma reduce_getattr_app h args o a b :
  reduce_getattr h args o (a ++ b) =
  bind (reduce_getattr h args o a) (λ o', reduce_getattr h args o' b).
Proof.
  revert o. induction a as [|n a IH]; intros o; [done|].
  cbn. destruct (getattr h o n args); cbn; [apply IH | done].
Qed.

Lemma reduce_getattr_chain h o names :
  reduce_getattr h [] o names = attr_chain h o names.
Proof.
  revert o. induction names as [|n names IH]; intros o; [done|].
  cbn. destruct (getattr h o n []); cbn; [apply IH | done].
Qed.

Lemma getattr_setattr_eq h h' o name v args :
  setattr h o name v = Ok h' → (length args ≤ 1)%nat →
  getattr h' o name args = Ok v.
Proof.
  unfold setattr, getattr. destruct (h !! o) as [ob|]; [|done].
  destruct (frozen ob); [done|]. intros [= <-] Hlen.
  rewrite lookup_insert_eq. cbn. rewrite lookup_insert_eq.
  destruct args as [|? [|? ?]]; try done. cbn in Hlen. lia.
Qed.

Lemma getattr_setattr_ne h h' o name v x name' args :
  setattr h o name v = Ok h' → name' ≠ name →
  getattr h' x name' args = getattr h x name' args.
Proof.
  unfold setattr, getattr. destruct (h !! o) as [ob|] eqn:Ho; [|done].
  destruct (frozen ob); [done|]. intros [= <-] Hne.
  destruct (decide (o = x)) as [->|Hox].
  - rewrite lookup_insert_eq, Ho. cbn. by rewrite lookup_insert_ne.
  - by rewrite lookup_insert_ne.
Qed.

Lemma attr_chain_setattr h h' o name v x names :
  setattr h o name v = Ok h' → name ∉ names →
  attr_chain h' x names = attr_chain h x names.
Proof.
  intros Hset. revert x. induction names as [|n names IH]; intros x Hn; [done|].
  apply not_elem_of_cons in Hn as [Hne Hn]. cbn.
  rewrite (getattr_setattr_ne _ _ _ _ _ _ _ _ Hset) by done.
  destruct (getattr h x n []); [by apply IH | done].
Qed.

(** C6: for a dotted path of attribute names, rgetattr is attribute access
    one level at a time; after an rsetattr that returns, rgetattr on the same
    path returns the value set, when the last name is none of the names before
    it, as in ["a.b.c"]; and rsetattr returns when the names before the last
    resolve to an object that takes attributes. *)
Theorem rgetattr_rsetattr_round_trip h obj names last v :
  Forall (λ s, attr_name s = true) (names ++ [last]) →
  last ∉ names →
  rgetattr h obj (dotted (names ++ [last])) [] = attr_chain h obj (names ++ [last]) ∧
  (∀ h', rsetattr h obj (dotted (names ++ [last])) v = Ok h' →
         rgetattr h' obj (dotted (names ++ [last])) [] = Ok v) ∧
  (∀ o ob, attr_chain h obj names = Ok o → h !! o = Some ob → frozen ob = false →
           ∃ h', rsetattr h obj (dotted (names ++ [last])) v = Ok h').
Proof.
  intros Hnames Hlast.
  assert (Hdf : Forall (λ s, dot_free s = true) (names ++ [last])).
  { eapply Forall_impl; [done|]. by intros s [_ ?]%andb_prop. }
  assert (Htr : Forall (λ s, truthy s = true) names).
  { apply Forall_app in Hnames as [Hn _].
    eapply Forall_impl; [done|]. by intros s [? _]%andb_prop. }
  assert (Hdl : dot_free last = true).
  { apply Forall_app in Hdf as [_ Hl]. by apply Forall_cons in Hl as [? _]. }
  assert (Hsplit : split_dot (dotted (names ++ [last])) = names ++ [last]).
  { apply split_dot_dotted; [by destruct names | done]. }
  assert (Hset : rsetattr h obj (dotted (names ++ [last])) v =
                 bind (attr_chain h obj names) (λ o, setattr h o last v)).
  { unfold rsetattr. destruct names as [|a names'] eqn:En.
    - cbn [app dotted]. by rewrite rpartition_dot_dot_free.
    - rewrite <- En in *. assert (names ≠ []) by (by rewrite En).
      rewrite rpartition_dot_dotted, truthy_dotted by done.
      unfold rgetattr. rewrite split_dot_dotted, reduce_getattr_chain; [done..|].
      by apply Forall_app in Hdf as [? _]. }
  unfold rgetattr. rewrite Hsplit, reduce_getattr_chain. split; [done|]. split.
  - intros h'. rewrite Hset.
    destruct (attr_chain h obj names) as [o|] eqn:Ho; [|done]. cbn. intros Hs.
    rewrite reduce_getattr_app, reduce_getattr_chain.
    rewrite (attr_chain_setattr _ _ _ _ _ _ _ Hs Hlast), Ho. cbn.
    by rewrite (getattr_setattr_eq _ _ _ _ _ [] Hs) by (cbn; lia).
  - intros o ob Ho Hob Hfr. rewrite Hset, Ho. cbn. unfold setattr.
    rewrite Hob, Hfr. by eexists.
Qed.

Lemma rgetattr_rsetattr_round_trip_witness :
  rgetattr sample_heap 0%nat "a.b.c" [] = attr_chain sample_heap 0%nat ["a"; "b"; "c"] ∧
  (∀ h', rsetattr sample_heap 0%nat "a.b.c" 3%nat = Ok h' →
         rgetattr h' 0%nat "a.b.c" [] = Ok 3%nat) ∧
  (∀ o ob, attr_chain sample_heap 0%nat ["a"; "b"] = Ok o →
           sample_heap !! o = Some ob → frozen ob = false →
           ∃ h', rsetattr sample_heap 0%nat "a.b.c" 3%nat = Ok h').
Proof.
  apply (rgetattr_rsetattr_round_trip sample_heap 0%nat ["a"; "b"] "c" 3%nat).
  - by repeat constructor.
  - compute_done.
Defined.

(** The condition on the last name: on an object that points to itself the
    path ["a.a"] resolves, and after the assignment it does not. *)
Example rsetattr_repeated_name :
  rgetattr cyclic_heap 0%nat "a.a" [] = Ok 0%nat ∧
  ∃ h', rsetattr cyclic_heap 0%nat "a.a" 1%nat = Ok h' ∧
        rgetattr h' 0%nat "a.a" [] = Raise AttributeError.
Proof. split; [reflexivity|]. eexists. split; reflexivity. Qed.

Lemma reduce_getattr_default_stays h d names :
  (∀ n, n ∈ names → attrs_of h d !! n = None) →
  reduce_getattr h [d] d names = Ok d.
Proof.
  induction names as [|n names IH]; intros Hd; [done|].
  cbn. unfold getattr.
  assert (E : h !! d ≫= (λ ob, attrs ob !! n) = None).
  { specialize (Hd n ltac:(by left)). unfold attrs_of in Hd.
    by destruct (h !! d). }
  rewrite E. cbn. apply IH. intros ??. apply Hd. by right.
Qed.

Lemma getattr_default h o n d :
  getattr h o n [d] =
  match getattr h o n [] with
  | Ok x => Ok x
  | Raise _ => Ok d
  end.
Proof. unfold getattr. by destruct (h !! o ≫= (λ ob, attrs ob !! n)). Qed.

Lemma reduce_getattr_default h d names o :
  (∀ n, n ∈ names → attrs_of h d !! n = None) →
  match reduce_getattr h [] o names with
  | Ok v => reduce_getattr h [d] o names = Ok v
  | Raise _ => reduce_getattr h [d] o names = Ok d
  end.
Proof.
  revert o. induction names as [|n names IH]; intros o Hd; [done|].
  cbn. rewrite getattr_default.
  destruct (getattr h o n []) as [x|]; cbn.
  - apply IH. intros ??. apply Hd. by right.
  - apply reduce_getattr_default_stays. intros ??. apply Hd. by right.
Qed.

Lemma reduce_getattr_default_ok h d names o :
  ∃ v, reduce_getattr h [d] o names = Ok v.
Proof.
  revert o. induction names as [|n names IH]; intros o; [by eexists|].
  cbn. unfold getattr.
  destruct (h !! o ≫= (λ ob, attrs ob !! n)); cbn; apply IH.
Qed.

Lemma reduce_getattr_resolved h d names obj o :
  attr_chain h obj names = Ok o → reduce_getattr h [d] obj names = Ok o.
Proof.
  revert obj. induction names as [|n names IH]; intros obj; [done|].
  cbn. rewrite getattr_default.
  destruct (getattr h obj n []) as [x|]; cbn; [apply IH | done].
Qed.

(** Where the default does come back: the names before a segment resolve,
    the segment does not, and the default has no attribute named like a
    segment after it. *)
Lemma rgetattr_default_after_failure h obj d names1 name names2 o :
  Forall (λ s, attr_name s = true) (names1 ++ name :: names2) →
  attr_chain h obj names1 = Ok o →
  getattr h o name [] = Raise AttributeError →
  (∀ n, n ∈ names2 → attrs_of h d !! n = None) →
  rgetattr h obj (dotted (names1 ++ name :: names2)) [d] = Ok d.
Proof.
  intros Hnames Ho Hfail Hd. unfold rgetattr.
  rewrite split_dot_dotted.
  - rewrite reduce_getattr_app, (reduce_getattr_resolved _ _ _ _ _ Ho). cbn.
    rewrite getattr_default, Hfail. cbn. by apply reduce_getattr_default_stays.
  - by destruct names1.
  - eapply Forall_impl; [done|]. by intros s [_ ?]%andb_prop.
Qed.

(** rsetattr raises the attribute error when the names before the last do
    not resolve. *)
Lemma rsetattr_prefix_error h obj names last v :
  names ≠ [] → Forall (λ s, attr_name s = true) (names ++ [last]) →
  attr_chain h obj names = Raise AttributeError →
  rsetattr h obj (dotted (names ++ [last])) v = Raise AttributeError.
Proof.
  intros Hne Hnames Hfail.
  assert (Hdf : Forall (λ s, dot_free s = true) (names ++ [last])).
  { eapply Forall_impl; [done|]. by intros s [_ ?]%andb_prop. }
  apply Forall_app in Hnames as [Hn _]. apply Forall_app in Hdf as [Hdn Hdl].
  apply Forall_cons in Hdl as [Hdl _].
  unfold rsetattr. rewrite rpartition_dot_dotted by done.
  rewrite truthy_dotted.
  - unfold rgetattr. by rewrite split_dot_dotted, reduce_getattr_chain, Hfail.
  - done.
  - eapply Forall_impl; [exact Hn|]. by intros s [? _]%andb_prop.
Qed.

(** C7: the code leaves the claim where the default has an attribute named
    like a segment after the failing one.  On the sample heap the path
    ["x.b"] does not resolve from object 0, which has no attribute [x]; with
    object 1 as the default, rgetattr goes on from the default and returns
    [1.b], which is object 2, where the claim has it return the default. *)
Theorem rgetattr_default_not_returned :
  rgetattr sample_heap 0%nat "x.b" [] = Raise AttributeError ∧
  rgetattr sample_heap 0%nat "x.b" [1%nat] = Ok 2%nat ∧
  2%nat ≠ 1%nat.
Proof. repeat split; [reflexivity..|done]. Qed.

(** ** maybe_no_grad *)

(** C10: the scope that [maybe_no_grad(False)] returns does nothing on
    entry and returns [None], answers [False] on exit whatever the exception,
    and a [with] statement over it raises what its body raises, in the state
    the body left. *)
Theorem dummy_scope_propagates :
  (∀ s, ∃ m, scope_enter (maybe_no_grad false) s = (Ok (m, None), s)) ∧
  (∀ exc s, scope_exit (maybe_no_grad false) exc s = (Ok false, s)) ∧
  (∀ A (body : option loc → M interp A) e s s',
     body None s = (Raise e, s') →
     with_ (maybe_no_grad false) body s = (Raise e, s')).
Proof.
  split; [|split].
  - intros s. by eexists.
  - done.
  - intros A body e s s' H. cbn. unfold bindM. cbn. by rewrite H.
Qed.

Lemma dummy_scope_propagates_witness :
  with_ (maybe_no_grad false) (λ _, throw KeyError : M interp nat) {| grad_enabled := true |} =
  (Raise KeyError, {| grad_enabled := true |}).
Proof.
  by apply (proj2 (proj2 dummy_scope_propagates)).
Defined.

(** The other scope switches the gradient mode off for the body and restores
    it afterwards. *)
Example no_grad_scope_body :
  with_ (maybe_no_grad true) (λ _ s, (Ok (grad_enabled s), s)) {| grad_enabled := true |} =
  (Ok (Some false), {| grad_enabled := true |}).
Proof. reflexivity. Qed.

(** ** tic and toc *)

(** C8: with the timer off, tic and toc return [None] and leave the world as
    it was: no synchronization, no reading of the clock, no output. *)
Theorem tic_toc_timer_off format_2f start_time name log w :
  tic false w = (Ok None, w) ∧
  toc format_2f start_time name false log w = (Ok None, w).
Proof. by split. Qed.

(** With the timer on and no device, tic raises; with a device it
    synchronizes and reads the clock. *)
Example tic_timer_on :
  tic true sample_io = (Raise RuntimeError, sample_io) ∧
  tic true {| cuda := true; readings := readings sample_io; taken := 0; events := [] |} =
    (Ok (Some (S754_zero false)),
     {| cuda := true; readings := readings sample_io; taken := 1; events := [Synchronize] |}).
Proof. split; reflexivity. Qed.

Example toc_timer_on :
  toc (λ _, "2000.00") (Some (f64_of_int 1)) "step" true (Some 7%nat)
    {| cuda := true; readings := readings sample_io; taken := 3; events := [] |} =
  (Ok (Some (f64_of_int 2000)),
   {| cuda := true; readings := readings sample_io; taken := 4;
      events := [Synchronize;
                 LogWrite 7%nat ("step                           EP: 2000.00 ms" +:+ newline);
                 LogFlush 7%nat] |}).
Proof. reflexivity. Qed.

(** * Further properties of the module *)

(** ** get_torch_device *)

(** X1: the device is the GPU exactly when it was asked for and is
    available; the benchmark flag is switched on exactly then and is never
    switched off, and availability is not touched. *)
Theorem get_torch_device_choice try_to_use_cuda b :
  (fst (get_torch_device try_to_use_cuda b) = Ok Device_cuda_0 ↔
     try_to_use_cuda = true ∧ cuda_is_available b = true) ∧
  (fst (get_torch_device try_to_use_cuda b) = Ok Device_cpu ↔
     try_to_use_cuda = false ∨ cuda_is_available b = false) ∧
  cuda_is_available (snd (get_torch_device try_to_use_cuda b)) = cuda_is_available b ∧
  cudnn_benchmark (snd (get_torch_device try_to_use_cuda b)) =
    cudnn_benchmark b || (try_to_use_cuda && cuda_is_available b).
Proof.
  unfold get_torch_device.
  destruct try_to_use_cuda, b as [[] []]; cbn; repeat split;
    intros; try done; try (by left); try (by right);
    repeat match goal with H : _ ∧ _ |- _ => destruct H | H : _ ∨ _ |- _ => destruct H end;
    done.
Qed.

(** ** optimizer_from_optim_params *)

(** X2: on a configuration of nested mappings the function raises
    [KeyError] when [learning_rate.initial] or [regularization.L2] is
    missing, without a call to the constructor; with both there its outcome
    is that of the constructor on the parameters of the network and these two
    values. *)
Theorem optimizer_from_optim_params_keys optim_Adam params net :
  (∀ k v, params !! k = Some v → ∃ d, v = CDict d) →
  (∀ lr reg i l2,
     params !! "learning_rate" = Some (CDict lr) → lr !! "initial" = Some i →
     params !! "regularization" = Some (CDict reg) → reg !! "L2" = Some l2 →
     optimizer_from_optim_params optim_Adam (CDict params) net = optim_Adam net i l2) ∧
  ((∀ lr, params !! "learning_rate" = Some (CDict lr) → lr !! "initial" = None) ∨
   (∀ reg, params !! "regularization" = Some (CDict reg) → reg !! "L2" = None) →
   optimizer_from_optim_params optim_Adam (CDict params) net = Raise KeyError).
Proof.
  intros Hd. unfold optimizer_from_optim_params. cbn. split.
  - intros lr reg i l2 -> Hi -> Hl. cbn. by rewrite Hi, Hl.
  - intros Hmiss.
    destruct (params !! "learning_rate") as [c1|] eqn:E1; cbn; [|done].
    destruct (Hd _ _ E1) as [lr ->]. cbn.
    destruct (lr !! "initial") as [i|] eqn:E2; cbn; [|done].
    destruct (params !! "regularization") as [c2|] eqn:E3; cbn; [|done].
    destruct (Hd _ _ E3) as [reg ->]. cbn.
    destruct (reg !! "L2") as [l2|] eqn:E4; cbn; [|done].
    destruct Hmiss as [H|H].
    + specialize (H lr eq_refl). congruence.
    + specialize (H reg eq_refl). congruence.
Qed.

Lemma optimizer_from_optim_params_keys_witness :
  optimizer_from_optim_params sample_Adam (CDict sample_params) [0%nat] =
  Ok {| adam_params := [0%nat]; adam_lr := CFloat f64_0_5; adam_weight_decay := CFloat f64_0_0 |}.
Proof.
  assert (Hd : ∀ k v, sample_params !! k = Some v → ∃ d, v = CDict d).
  { intros k v H. apply elem_of_list_to_map_2 in H.
    repeat (apply elem_of_cons in H as [H|H]; [injection H as -> ->; by eexists|]).
    by apply elem_of_nil in H. }
  by rewrite (proj1 (optimizer_from_optim_params_keys sample_Adam sample_params [0%nat] Hd)
                sample_lr _ (CFloat f64_0_5) (CFloat f64_0_0) eq_refl eq_refl eq_refl eq_refl).
Defined.

Example optimizer_from_optim_params_missing :
  optimizer_from_optim_params sample_Adam (CDict sample_params_blank) [0%nat] = Raise KeyError.
Proof. reflexivity. Qed.

(** ** lr_scheduler_from_optim_params *)

(** X3: the decision is taken on the length of whatever is under
    [learning_rate.epoch_schedule]: for a value of length zero the result is
    [None] and [decay_factor] is not looked up; for a value of another length
    the scheduler is made with that very value as milestones, and a missing
    [decay_factor] is a [KeyError]. *)
Theorem lr_scheduler_by_length params lr schedule n net optimizer :
  params !! "learning_rate" = Some (CDict lr) →
  lr !! "epoch_schedule" = Some schedule →
  len schedule = Ok n →
  (n = 0%nat → lr_scheduler_from_optim_params (CDict params) net optimizer = Ok None) ∧
  (n ≠ 0%nat →
     lr_scheduler_from_optim_params (CDict params) net optimizer =
     match lr !! "decay_factor" with
     | Some g => Ok (Some {| sched_optimizer := optimizer; milestones := schedule; gamma := g |})
     | None => Raise KeyError
     end).
Proof.
  intros Hlr Hs Hn. unfold lr_scheduler_from_optim_params.
  cbn. rewrite Hlr. cbn. rewrite Hs. cbn. rewrite Hn. cbn.
  destruct n as [|n]; cbn; split; try done.
  intros _. by destruct (lr !! "decay_factor").
Qed.

Lemma lr_scheduler_by_length_witness :
  lr_scheduler_from_optim_params (CDict sample_params_blank) []
    {| adam_params := []; adam_lr := CInt 0; adam_weight_decay := CInt 0 |} = Ok None.
Proof.
  by apply (proj1 (lr_scheduler_by_length sample_params_blank sample_lr_blank
                     (CStr "") 0%nat _ _ eq_refl eq_refl eq_refl)).
Defined.

(** X4: without [learning_rate] or without [epoch_schedule] the function
    raises [KeyError]; with a number as schedule it raises [TypeError]. *)
Theorem lr_scheduler_errors params net optimizer :
  (params !! "learning_rate" = None →
     lr_scheduler_from_optim_params (CDict params) net optimizer = Raise KeyError) ∧
  (∀ lr, params !! "learning_rate" = Some (CDict lr) →
     lr !! "epoch_schedule" = None →
     lr_scheduler_from_optim_params (CDict params) net optimizer = Raise KeyError) ∧
  (∀ lr schedule, params !! "learning_rate" = Some (CDict lr) →
     lr !! "epoch_schedule" = Some schedule →
     (∃ x, schedule = CFloat x) ∨ (∃ z, schedule = CInt z) →
     lr_scheduler_from_optim_params (CDict params) net optimizer = Raise TypeError).
Proof.
  unfold lr_scheduler_from_optim_params. cbn. split; [|split].
  - by intros ->.
  - intros lr -> H. cbn. by rewrite H.
  - intros lr schedule -> H [[x ->]|[z ->]]; cbn; by rewrite H.
Qed.

Lemma lr_scheduler_errors_witness :
  lr_scheduler_from_optim_params (CDict ∅) []
    {| adam_params := []; adam_lr := CInt 0; adam_weight_decay := CInt 0 |} = Raise KeyError.
Proof. by apply (proj1 (lr_scheduler_errors ∅ _ _)). Defined.

(** ** print_log, tic and toc *)

(** X5: print_log writes the text to the log exactly once and flushes the
    log after it; the console receives the same text before, and only when
    [display] is set; the text ends with a newline unless [same_line] is set.
    Nothing else changes. *)
Theorem print_log_events print_str log same_line display w :
  print_log print_str log same_line display w =
  (Ok tt,
   {| cuda := cuda w; readings := readings w; taken := taken w;
      events := events w ++
        (if display
         then [Stdout (if same_line then print_str else print_str +:+ newline)]
         else []) ++
        [LogWrite log (if same_line then print_str else print_str +:+ newline);
         LogFlush log] |}).
Proof.
  unfold print_log, bindM, emit, ret.
  destruct display, same_line; cbn; by rewrite <- ?app_assoc.
Qed.



(** X7: a toc with the timer on after a tic with the timer off raises
    [TypeError], after it has synchronized the device and read the clock and
    before any output; a toc with the timer off after a tic with the timer on
    returns [None] and adds nothing to what tic did. *)
Theorem tic_toc_mismatched_timer format_2f name log w :
  cuda w = true →
  (do* start_time := tic false in toc format_2f start_time name true log) w =
    (Raise TypeError,
     {| cuda := true; readings := readings w; taken := S (taken w);
        events := events w ++ [Synchronize] |}) ∧
  (do* start_time := tic true in toc format_2f start_time name false log) w =
    (Ok None,
     {| cuda := true; readings := readings w; taken := S (taken w);
        events := events w ++ [Synchronize] |}).
Proof.
  intros Hc. unfold tic, toc, bindM, cuda_synchronize, time_time, emit, ret, throw.
  cbn. by rewrite Hc.
Qed.

Lemma tic_toc_mismatched_timer_witness :
  fst ((do* start_time := tic false in toc sample_format_2f start_time "x" true None)
         sample_io_cuda) = Raise TypeError.
Proof.
  by rewrite (proj1 (tic_toc_mismatched_timer sample_format_2f "x" None sample_io_cuda eq_refl)).
Defined.

(** X8: with the timer on and no device to synchronize, tic and toc raise
    before they read the clock or write anything. *)
Theorem tic_toc_without_device format_2f start_time name log w :
  cuda w = false →
  (∃ e, tic true w = (Raise e, w)) ∧
  (∃ e, toc format_2f start_time name true log w = (Raise e, w)).
Proof.
  intros Hc. unfold tic, toc, bindM, cuda_synchronize. rewrite Hc.
  split; by eexists.
Qed.

Lemma tic_toc_without_device_witness :
  ∃ e, tic true sample_io = (Raise e, sample_io).
Proof.
  exact (proj1 (tic_toc_without_device sample_format_2f None "" None sample_io eq_refl)).
Defined.

(** ** maybe_no_grad *)

(** X9: in the scope that [maybe_no_grad(True)] returns the body starts with
    the gradient mode off; afterwards the mode is what it was before the
    statement, whether the body returned or raised and whatever it did to
    the mode, and the outcome is that of the body. *)
Theorem no_grad_scope_restores A (body : option loc → M interp A) s :
  with_ (maybe_no_grad true) body s =
  (match fst (body None {| grad_enabled := false |}) with
   | Ok a => Ok (Some a)
   | Raise e => Raise e
   end, s).
Proof.
  unfold with_, bindM. cbn.
  destruct (body None {| grad_enabled := false |}) as [[a|e] s1]; cbn; by destruct s.
Qed.

(** X10: whatever the flag, the outcome of a [with] statement over the
    scope of maybe_no_grad is the outcome of its body, so an exception is
    never swallowed; and with the flag off the body runs in the state of the
    statement and the statement ends in the state of the body. *)
Theorem maybe_no_grad_outcome flag A (body : option loc → M interp A) s :
  fst (with_ (maybe_no_grad flag) body s) =
    match fst (body None (if flag then {| grad_enabled := false |} else s)) with
    | Ok a => Ok (Some a)
    | Raise e => Raise e
    end ∧
  snd (with_ (maybe_no_grad false) body s) = snd (body None s).
Proof.
  unfold with_, bindM. split.
  - destruct flag; cbn.
    + by destruct (body None {| grad_enabled := false |}) as [[a|e] s1].
    + by destruct (body None s) as [[a|e] s1].
  - cbn. by destruct (body None s) as [[a|e] s1].
Qed.

(** ** rgetattr and rsetattr, further *)

Lemma split_dot_cons s : ∃ w ws, split_dot s = w :: ws.
Proof.
  destruct s as [|c s]; cbn; [by eexists _, _|].
  destruct (is_dot c); [by eexists _, _|].
  destruct (split_dot s); by eexists _, _.
Qed.

(** X11: rgetattr with more than one default raises [TypeError], whatever
    the object and the path, because every path has a first segment and
    [getattr] takes one default at most. *)
Theorem rgetattr_two_defaults h obj attr d1 d2 ds :
  rgetattr h obj attr (d1 :: d2 :: ds) = Raise TypeError.
Proof.
  unfold rgetattr. by destruct (split_dot_cons attr) as (w & ws & ->).
Qed.

(** X12: an rsetattr that returns has changed one attribute of one object:
    the attribute named by the part of the path after its last dot gets the
    value, every other attribute of that object and every other object are
    as before, and no object is made. *)
Theorem rsetattr_frame h obj attr v h' :
  rsetattr h obj attr v = Ok h' →
  ∃ o,
    attrs_of h' o !! (rpartition_dot attr).2 = Some v ∧
    (∀ name, name ≠ (rpartition_dot attr).2 → attrs_of h' o !! name = attrs_of h o !! name) ∧
    (∀ o', o' ≠ o → h' !! o' = h !! o') ∧
    dom h' = dom h.
Proof.
  unfold rsetattr. destruct (rpartition_dot attr) as [[pre sep] post]. cbn [snd].
  destruct (if truthy pre then rgetattr h obj pre [] else Ok obj) as [o|]; [|done].
  cbn. unfold setattr. destruct (h !! o) as [ob|] eqn:Ho; [|done].
  destruct (frozen ob); [done|]. intros [= <-]. exists o.
  unfold attrs_of. rewrite lookup_insert_eq, Ho. cbn. repeat split.
  - apply lookup_insert_eq.
  - intros name Hne. by apply lookup_insert_ne.
  - intros o' Hne. by apply lookup_insert_ne.
  - rewrite dom_insert_L. apply elem_of_dom_2 in Ho.
    apply subseteq_union_1_L. by apply singleton_subseteq_l.
Qed.

Lemma rsetattr_frame_witness :
  ∃ h', rsetattr sample_heap 0%nat "a.c" 2%nat = Ok h' ∧
  ∃ o, attrs_of h' o !! "c" = Some 2%nat ∧
       (∀ name, name ≠ "c" → attrs_of h' o !! name = attrs_of sample_heap o !! name) ∧
       (∀ o', o' ≠ o → h' !! o' = sample_heap !! o') ∧
       dom h' = dom sample_heap.
Proof.
  eexists. split; [reflexivity|].
  exact (rsetattr_frame sample_heap 0%nat "a.c" 2%nat _ eq_refl).
Defined.

(** X13: on a path without a dot rgetattr is [getattr] and rsetattr is
    [setattr], on the object itself. *)
Theorem single_name_path h obj name args v :
  dot_free name = true →
  rgetattr h obj name args = getattr h obj name args ∧
  rsetattr h obj name v = setattr h obj name v.
Proof.
  intros Hn. unfold rgetattr, rsetattr.
  rewrite split_dot_dot_free, rpartition_dot_dot_free by done. cbn. split; [|done].
  by destruct (getattr h obj name args).
Qed.

Lemma single_name_path_witness :
  rgetattr sample_heap 0%nat "a" [] = Ok 1%nat ∧
  rsetattr sample_heap 3%nat "a" 0%nat = Raise AttributeError.
Proof.
  destruct (single_name_path sample_heap 0%nat "a" [] 0%nat eq_refl) as [-> _].
  destruct (single_name_path sample_heap 3%nat "a" [] 0%nat eq_refl) as [_ ->].
  split; reflexivity.
Defined.

(** X14: the two functions part on a path that begins with a dot: rsetattr
    takes the empty head for no head and assigns on the object itself, while
    rgetattr looks up the attribute with the empty name first; after such an
    rsetattr on an object without that attribute, rgetattr on the same path
    raises. *)
Theorem leading_dot_path h obj name v :
  attr_name name = true →
  rsetattr h obj ("." +:+ name) v = setattr h obj name v ∧
  (attrs_of h obj !! "" = None →
   ∀ h', rsetattr h obj ("." +:+ name) v = Ok h' →
         rgetattr h' obj ("." +:+ name) [] = Raise AttributeError).
Proof.
  intros [Ht Hn]%andb_prop.
  assert (Hset : rsetattr h obj ("." +:+ name) v = setattr h obj name v).
  { unfold rsetattr. rewrite append_cons, append_nil_l. cbn.
    by rewrite rpartition_dot_dot_free. }
  split; [done|]. intros Hnone h'. rewrite Hset. intros Hs.
  unfold rgetattr. rewrite append_cons, append_nil_l. cbn [split_dot].
  change (is_dot ".") with true. cbn [reduce_getattr].
  rewrite (getattr_setattr_ne _ _ _ _ _ _ _ _ Hs) by (by destruct name).
  unfold getattr. unfold attrs_of in Hnone.
  destruct (h !! obj) as [ob|]; cbn in *; [by rewrite Hnone | done].
Qed.

Lemma leading_dot_path_witness :
  rsetattr sample_heap 0%nat ".c" 2%nat = setattr sample_heap 0%nat "c" 2%nat ∧
  ∀ h', rsetattr sample_heap 0%nat ".c" 2%nat = Ok h' →
        rgetattr h' 0%nat ".c" [] = Raise AttributeError.
Proof.
  destruct (leading_dot_path sample_heap 0%nat "c" 2%nat eq_refl) as [H1 H2].
  split; [exact H1 | by apply H2].
Defined.

(** ** soft_update and hard_update, further *)

Lemma copy__shapes st dst src st' :
  copy_ st dst src = Ok st' → shape <$> st' = shape <$> st.
Proof.
  unfold copy_. destruct (st !! dst) as [t|] eqn:Ht; [|done].
  destruct (shape_eqb _ _); [|destruct (expand _ _); [|done]];
    intros [= <-]; by apply insert_same_shape with t.
Qed.

Lemma for_zip_shapes body target source st st' :
  (∀ s tp p s', body s tp p = Ok s' → shape <$> s' = shape <$> s) →
  for_zip body target source st = Ok st' →
  shape <$> st' = shape <$> st.
Proof.
  intros Hbody. revert source st.
  induction target as [|tp target IH]; intros [|p source] st; cbn; try by intros [= <-].
  destruct (body st tp p) as [s1|] eqn:Hs; cbn; [|done].
  intros H. rewrite (IH _ _ H). eauto.
Qed.

(** X15: an update that returns has kept the shape of every tensor in the
    store, and has neither added nor removed a tensor, whatever the networks
    and the blend factor: [copy_] writes into the target tensor as it is. *)
Theorem update_keeps_shapes source target tau st st' :
  hard_update source target st = Ok st' ∨ soft_update source target tau st = Ok st' →
  shape <$> st' = shape <$> st ∧ dom st' = dom st.
Proof.
  intros H.
  assert (E : shape <$> st' = shape <$> st).
  { destruct H as [H|H]; eapply for_zip_shapes; try exact H.
    - intros s tp p s'. unfold hard_update_body, read.
      destruct (s !! p); cbn; [apply copy__shapes | done].
    - intros s tp p s'. unfold soft_update_body, read.
      destruct (s !! tp); cbn; [|done]. destruct (s !! p); cbn; [|done].
      destruct (tadd _ _); cbn; [apply copy__shapes | done]. }
  split; [done|]. by rewrite <- (dom_fmap_L shape st'), E, dom_fmap_L.
Qed.

Lemma update_keeps_shapes_witness :
  ∃ st', hard_update [2%nat] [0; 1]%nat store4 = Ok st' ∧
         shape <$> st' = shape <$> store4 ∧ dom st' = dom store4.
Proof.
  eexists. split; [reflexivity|].
  apply (update_keeps_shapes [2%nat] [0; 1]%nat f64_0_0 store4). by left.
Defined.

(** X16: hard_update changes nothing when every target parameter already
    holds the tensor of its source parameter; so a second hard_update after a
    first one that reached this state is without effect. *)
Theorem hard_update_already_equal source target st :
  Forall2 (λ tp p, ∃ t, st !! tp = Some t ∧ st !! p = Some t) target source →
  hard_update source target st = Ok st.
Proof.
  unfold hard_update. intros H.
  induction H as [|tp p target source (t & Ht & Hp) _ IH]; [done|].
  cbn. rewrite (hard_update_body_paired _ _ _ _ _ Ht Hp eq_refl). cbn.
  by rewrite insert_id.
Qed.

Lemma hard_update_already_equal_witness :
  hard_update [1%nat] [0%nat] store_equal = Ok store_equal.
Proof.
  apply hard_update_already_equal. repeat constructor. by eexists.
Defined.

(** ** reparameterize, further *)

(** X17: whenever reparameterize returns, the result has the shape of
    [logvar]; it returns exactly when [mu] has that shape or can be broadcast
    to it. *)
Theorem reparameterize_shape exp draw mu logvar :
  (∀ z, reparameterize exp draw mu logvar = Ok z → shape z = shape logvar) ∧
  ((∃ z, reparameterize exp draw mu logvar = Ok z) ↔
   shape mu = shape logvar ∨ expandable (shape mu) (shape logvar) = true).
Proof.
  unfold reparameterize.
  set (std := texp exp (clamp (tmul_scalar logvar f64_0_5) (-4) 15)).
  destruct (tbinop_same_shape f32_mul (new_normal_ draw (shape std)) std eq_refl) as [Hmul _].
  unfold tmul. rewrite Hmul. cbn [bind].
  unfold tadd_, tbinop_, shape_eqb, expand. cbn [shape std texp clamp tmul_scalar new_normal_].
  destruct (decide (shape logvar = shape mu)) as [E|E].
  - rewrite bool_decide_eq_true_2 by done. split.
    + by intros z [= <-].
    + split; [by left | by eexists].
  - rewrite bool_decide_eq_false_2 by done.
    destruct (expandable (shape mu) (shape logvar)); split.
    + by intros z [= <-].
    + split; [by right | by eexists].
    + done.
    + split; [by intros [z ?] | by intros [?|?]].
Qed.

Lemma binary_normalize_not_nan prec emax m e sz :
  is_nan (binary_normalize prec emax m e sz) = false.
Proof.
  destruct m as [|p|p]; [done| |]; cbn; unfold binary_round;
    destruct (shl_align _ _ _) as [mz ez]; by apply binary_round_aux_not_nan.
Qed.

Lemma f32_mul_finite_not_nan x y :
  is_finite x = true → is_finite y = true → is_nan (f32_mul x y) = false.
Proof.
  destruct x as [sx|sx| |sx mx ex], y as [sy|sy| |sy my ey]; try done.
  intros _ _. by apply binary_round_aux_not_nan.
Qed.

Lemma f32_add_finite_not_nan x y :
  is_nan x = false → is_finite y = true → is_nan (f32_add x y) = false.
Proof.
  destruct x as [sx|sx| |sx mx ex], y as [sy|sy| |sy my ey]; try done.
  - by destruct sx, sy.
  - intros _ _. apply binary_normalize_not_nan.
Qed.

Lemma scale_shift_not_nan (es std mu : list spec_float) :
  Forall (λ x, is_finite x = true) es →
  Forall (λ x, is_finite x = true) std →
  Forall (λ x, is_finite x = true) mu →
  Forall (λ x, is_nan x = false)
    (zip_with_f f32_add (zip_with_f f32_mul es std) mu).
Proof.
  intros Hes. revert std mu.
  induction Hes as [|e es He _ IH]; intros std mu Hstd Hmu; [constructor|].
  destruct Hstd as [|s std Hs Hstd]; [constructor|].
  destruct Hmu as [|m mu Hm Hmu]; [constructor|].
  cbn. constructor; [|by apply IH].
  by apply f32_add_finite_not_nan; [apply f32_mul_finite_not_nan|].
Qed.

(** X18: for a [logvar] without a NaN, infinite elements included, a finite
    [mu] of its shape and finite draws, reparameterize returns a tensor
    without a NaN, as long as the exponential is finite between the bounds of
    the clamp: the clamp keeps the standard deviation finite, so that no
    product of zero and infinity arises. *)
Theorem reparameterize_no_nan exp draw mu logvar :
  (∀ x, in_clamp_range x → is_finite (exp x) = true) →
  (∀ n, is_finite (draw n) = true) →
  shape mu = shape logvar →
  Forall (λ x, is_nan x = false) (data logvar) →
  Forall (λ x, is_finite x = true) (data mu) →
  ∃ z, reparameterize exp draw mu logvar = Ok z ∧
       Forall (λ x, is_nan x = false) (data z).
Proof.
  intros Hexp Hdraw Hsh Hnan Hmu. unfold reparameterize.
  set (std := texp exp (clamp (tmul_scalar logvar f64_0_5) (-4) 15)).
  destruct (tbinop_same_shape f32_mul (new_normal_ draw (shape std)) std eq_refl) as [Hmul _].
  unfold tmul. rewrite Hmul. cbn [bind].
  match goal with |- ∃ z, tadd_ ?t _ = _ ∧ _ => set (es := t) end.
  assert (Hes : shape es = shape mu) by (cbn; congruence).
  destruct (tbinop_same_shape f32_add es mu Hes) as [_ Hadd_].
  unfold tadd_. rewrite Hadd_. eexists. split; [done|].
  cbn [data shape es std texp clamp tmul_scalar new_normal_].
  apply scale_shift_not_nan; [| |done].
  - apply Forall_map, Forall_forall. intros ? _. apply Hdraw.
  - rewrite !Forall_map. eapply Forall_impl; [exact Hnan|].
    intros x Hx. cbn. by apply Hexp, fclamp_in_range, half_not_nan.
Qed.

Lemma reparameterize_no_nan_witness :
  ∃ z, reparameterize sample_exp zero_draw (vec [f32_3_0; f32_1_0])
         (vec [S754_infinity false; S754_infinity true]) = Ok z ∧
       Forall (λ x, is_nan x = false) (data z).
Proof.
  apply reparameterize_no_nan; try done.
  - apply sample_exp_finite.
  - by repeat constructor.
  - by repeat constructor.
Defined.

(** ** backprop_for_loss, further *)

Section BackpropFailures.
Context {optimizer_t loss_t : Type}.
Variable zero_grad : optimizer_t → params_state → result params_state.
Variable backward : loss_t → bool → params_state → result params_state.
Variable clip_grad_norm_ : network → spec_float → params_state → result params_state.
Variable step : optimizer_t → params_state → result params_state.
Variable norm2 : tensor → spec_float.

Lemma framework_raise c f w e :
  f (pstate w) = Raise e →
  framework c f w = (Raise e, {| pstate := pstate w; calls := calls w ++ [c] |}).
Proof. intros H. unfold framework. by rewrite H. Qed.

(** X19: the optimizer does not step after a failure: when the backward
    pass raises, its exception is the outcome and neither clipping nor step
    is called; when clipping raises, its exception is the outcome and step is
    not called.  The parameters' state is the one the failing call found. *)
Theorem backprop_for_loss_failure net optim loss max_grad_norm retain_graph w s1 :
  zero_grad optim (pstate w) = Ok s1 →
  (∀ e, backward loss retain_graph s1 = Raise e →
     backprop_for_loss _ _ zero_grad backward clip_grad_norm_ step norm2
       net optim loss max_grad_norm retain_graph w =
     (Raise e, {| pstate := s1; calls := calls w ++ [ZeroGrad; Backward retain_graph] |})) ∧
  (∀ s2 m e, backward loss retain_graph s1 = Ok s2 →
     max_grad_norm = Some m → clip_grad_norm_ net m s2 = Raise e →
     backprop_for_loss _ _ zero_grad backward clip_grad_norm_ step norm2
       net optim loss max_grad_norm retain_graph w =
     (Raise e, {| pstate := s2;
                  calls := calls w ++ [ZeroGrad; Backward retain_graph; ClipGradNorm m] |})).
Proof.
  intros H1. unfold backprop_for_loss, bindM.
  rewrite (framework_ok _ _ _ _ H1). split.
  - intros e H2. rewrite (framework_raise _ _ {| pstate := s1 |} e) by done.
    cbn. by rewrite <- app_assoc.
  - intros s2 m e H2 -> H3.
    rewrite (framework_ok _ _ {| pstate := s1 |} s2) by done.
    rewrite (framework_raise _ _ {| pstate := s2 |} e) by done.
    cbn. by rewrite <- !app_assoc.
Qed.
End BackpropFailures.

Lemma backprop_for_loss_failure_witness :
  backprop_for_loss _ _ sample_zero_grad failing_backward sample_clip sample_step
    sample_norm2 [0; 1]%nat tt tt (Some f64_1_0) true sample_autograd =
  (Raise RuntimeError,
   {| pstate := {| values := store4; grads := ∅ |};
      calls := [ZeroGrad; Backward true] |}).
Proof.
  exact (proj1 (backprop_for_loss_failure sample_zero_grad failing_backward sample_clip
                  sample_step sample_norm2 [0; 1]%nat tt tt (Some f64_1_0) true
                  sample_autograd _ eq_refl) RuntimeError eq_refl).
Defined.

(** ** ProgressBar *)

(** X20: without a bar, that is before the start of a fit and after its
    end, the end of an epoch and the end of a fit raise [AttributeError] and
    call nothing of the progress-bar library. *)
Theorem progress_bar_without_bar self tr w :
  global_pb self = None →
  on_epoch_end self tr w = (Raise AttributeError, w) ∧
  on_fit_end self tr w = (Raise AttributeError, w).
Proof.
  intros H. unfold on_epoch_end, on_fit_end, on_global_pb, bindM, throw.
  by rewrite H.
Qed.

Lemma progress_bar_without_bar_witness :
  on_epoch_end (ProgressBar_init true true) {| current_epoch := 0; max_epochs := 3 |}
    {| bars := 0; tqdm_calls := [] |} =
  (Raise AttributeError, {| bars := 0; tqdm_calls := [] |}).
Proof.
  exact (proj1 (progress_bar_without_bar (ProgressBar_init true true) _ _ eq_refl)).
Defined.



Example progress_bar_two_epochs :
  fit (ProgressBar_init true false) {| current_epoch := 0; max_epochs := 2 |}
    [{| current_epoch := 0; max_epochs := 2 |}; {| current_epoch := 1; max_epochs := 2 |}]
    {| current_epoch := 2; max_epochs := 2 |} {| bars := 0; tqdm_calls := [] |} =
  (Ok (ProgressBar_init true false),
   {| bars := 1;
      tqdm_calls := [TqdmNew 0%nat "Epoch: 1/2" 2 0 false false;
                     TqdmSetDescription 0%nat "Epoch: 1/2"; TqdmUpdate 0%nat 1;
                     TqdmSetDescription 0%nat "Epoch: 2/2"; TqdmUpdate 0%nat 1;
                     TqdmClose 0%nat] |}).
Proof. vm_compute. reflexivity. Qed.
